(** * Hot dog eating competition: a verified model of [competition.py]

    The development embeds [round_value], [Event] and [Competition] of
    [src/competition.py] and proves the properties of the event log and of
    the winner query.

    Modelling conventions.
    - Numbers.  The code is embedded twice.  The first embedding models
      Python numbers (ints and finite floats) as exact rationals [Q]; [==]
      on Python numbers is [Qeq].  Its arithmetic is exact: binary rounding
      error, infinities and NaN are outside of it, and so is the 28 digit
      limit of the default [decimal] context.  It carries the properties of
      the order of events, of the sort, of the state of the object and of
      the decimal rounding of exact values.  The second embedding (names
      ending in [64]) computes on IEEE 754 binary64 numbers as Python does;
      the properties that depend on the rounding of the doubles or on the
      limits of the [decimal] module (the test at the boundary of the
      competition, the stored count, the events past the end of the
      competition, the trace of a competitor, termination and exceptions)
      are stated on it.
    - In the first embedding [Decimal(value)] is an exact conversion, hence
      the identity; [quantize] rounds half to even (the rounding of the
      default context) to the number of places of its [precision] argument;
      [float(...)] of the quantized decimal is again exact.
    - Strings are compared lexicographically by character code
      ([String.compare]), as Python compares [str].
    - The dict [competitors] is the list of its items in iteration order; a
      dict has distinct keys ([NoDup] of the names).  The local dicts
      [durations] and [breaks] are finite maps keyed by name.
    - [while 1] is modelled with fuel: [NoFuel] means that the loop did not
      reach its [break] within the given number of iterations.
    - Exceptions are results; the state of the object after an exception is
      not tracked. *)

From Stdlib Require Import QArith Qround Qpower Lqa Lia ZArith String Ascii List.
From Stdlib Require Import Sorting.Sorted Sorting.Permutation.
From Stdlib Require Import Structures.OrderedTypeEx.
From Stdlib Require Import Floats.SpecFloat.
From stdpp Require Import gmap strings list fin_maps.

Open Scope Q_scope.

(* ================================================================== *)
(** ** Results of fallible, possibly non-terminating code *)

Inductive exn : Type :=
| ZeroDivisionError
| KeyError
| ValueError
| InvalidOperation
| OverflowError.

Inductive result (A : Type) : Type :=
| Ok (a : A)
| Raise (e : exn)
| NoFuel.

Arguments Ok {A} a.
Arguments Raise {A} e.
Arguments NoFuel {A}.

Definition bind {A B : Type} (r : result A) (k : A -> result B) : result B :=
  match r with
  | Ok a => k a
  | Raise e => Raise e
  | NoFuel => NoFuel
  end.

Notation "'let*' x ':=' r 'in' k" := (bind r (fun x => k))
  (at level 10, x name, r at level 100, k at level 200).

(* ================================================================== *)
(** ** Decimal rounding: [round_value] *)

(** A [decimal.Decimal] with a non-positive exponent:
    [coefficient * 10^(-places)]. *)
Record Decimal : Type := mkDecimal {
  coefficient : Z;
  places : nat
}.

(** [Decimal('1.000')] and [Decimal('1.00')]. *)
Definition Decimal_1_000 : Decimal := mkDecimal 1000 3.
Definition Decimal_1_00 : Decimal := mkDecimal 100 2.

Definition pow10 (p : nat) : positive := Z.to_pos (10 ^ Z.of_nat p).

(** [float(d)] *)
Definition Decimal_to_float (d : Decimal) : Q :=
  coefficient d # pow10 (places d).

(** Rounding to the nearest integer, ties to the even one
    ([ROUND_HALF_EVEN]). *)
Definition round_half_even (x : Q) : Z :=
  let f := Qfloor x in
  match Qcompare (x - inject_Z f) (1 # 2) with
  | Lt => f
  | Gt => (f + 1)%Z
  | Eq => if Z.even f then f else (f + 1)%Z
  end.

(** [Decimal(value).quantize(precision)] *)
Definition quantize (value : Q) (precision : Decimal) : Decimal :=
  mkDecimal
    (round_half_even (value * inject_Z (Z.pos (pow10 (places precision)))))
    (places precision).

(** [round_value(value, precision)] *)
Definition round_value (value : Q) (precision : Decimal) : Q :=
  Decimal_to_float (quantize value precision).

(* ================================================================== *)
(** ** [Event] *)

Record Event : Type := mkEvent {
  elapsed_time : Q;
  name : string;
  total_hot_dogs_eaten : Q
}.

Definition Qltb (x y : Q) : bool := negb (Qle_bool y x).

(** [Event.__eq__] *)
Definition Event_eq (self other : Event) : bool :=
  Qeq_bool (elapsed_time self) (elapsed_time other)
  && String.eqb (name self) (name other)
  && Qeq_bool (total_hot_dogs_eaten self) (total_hot_dogs_eaten other).

(** [Event.__lt__] *)
Definition Event_lt (self other : Event) : bool :=
  if Qeq_bool (elapsed_time self) (elapsed_time other)
  then String.ltb (name self) (name other)
  else Qltb (elapsed_time self) (elapsed_time other).

(** [Event.rounded(precision)] *)
Definition rounded_to (self : Event) (precision : Decimal) : Event :=
  mkEvent (round_value (elapsed_time self) precision)
          (name self)
          (round_value (total_hot_dogs_eaten self) precision).

(** [Event.rounded()], with the default precision [Decimal('1.000')]. *)
Definition rounded (self : Event) : Event := rounded_to self Decimal_1_000.

(* ================================================================== *)
(** ** [list.sort] and [max] over events

    [list.sort()] is a stable sort that compares with [__lt__] only; the
    result of a stable sort is determined by the comparison, so it is
    modelled by the stable insertion sort.  [max] keeps the first maximal
    element: it replaces the candidate only when [item > candidate], which
    for events is the reflected [candidate.__lt__(item)]. *)

Fixpoint insert_sorted (x : Event) (l : list Event) : list Event :=
  match l with
  | [] => [x]
  | y :: l' => if Event_lt x y then x :: y :: l' else y :: insert_sorted x l'
  end.

Definition list_sort (l : list Event) : list Event :=
  fold_left (fun acc x => insert_sorted x acc) l [].

Definition list_max (l : list Event) : result Event :=
  match l with
  | [] => Raise ValueError
  | x :: l' =>
      Ok (fold_left (fun best item => if Event_lt best item then item else best)
                    l' x)
  end.

(* ================================================================== *)
(** ** [Competition] *)

Record Competition : Type := mkCompetition {
  competitors : list (string * (nat -> Q));
  duration : Q;
  event_list : list Event
}.

(** [Competition.__init__] *)
Definition Competition_init (competitors : list (string * (nat -> Q)))
    (duration : Q) : Competition :=
  mkCompetition competitors duration [].

(** The variables of [run] that the loop updates, together with
    [self.event_list]. *)
Record loop_state : Type := mkState {
  durations : gmap string Q;
  breaks : gmap string nat;
  events : list Event
}.

Definition float_of_nat (n : nat) : Q := inject_Z (Z.of_nat n).

(** Lines 60-81: the body of the inner [for] loop for one competitor. *)
Definition visit (duration : Q) (cnt : nat) (competitor : string)
    (rate : nat -> Q) (st : loop_state) : result loop_state :=
  match breaks st !! competitor with
  | None => Raise KeyError
  | Some b =>
      if Nat.eqb b 0 then
        let current_eaten_time := rate cnt in
        let next_eaten_time := rate (cnt + 1)%nat in
        let d :=
          match durations st !! competitor with
          | Some d0 => d0 + current_eaten_time
          | None => current_eaten_time
          end in
        let durations' := <[competitor := d]> (durations st) in
        let event := mkEvent d competitor (float_of_nat (cnt + 1)) in
        let events' := events st ++ [event] in
        let diff := duration - d - next_eaten_time in
        if Qltb diff 0 then
          let breaks' := <[competitor := 1%nat]> (breaks st) in
          let duration_left := duration - d in
          if Qeq_bool next_eaten_time 0 then Raise ZeroDivisionError
          else
            let total_hot_dog_eaten :=
              round_value
                (float_of_nat (cnt + 1) + duration_left / next_eaten_time)
                Decimal_1_00 in
            let event := mkEvent duration competitor total_hot_dog_eaten in
            Ok (mkState durations' breaks' (events' ++ [event]))
        else Ok (mkState durations' (breaks st) events')
      else Ok st
  end.

(** Line 59: [for competitor in self.competitors]. *)
Fixpoint for_each (duration : Q) (cnt : nat)
    (cs : list (string * (nat -> Q))) (st : loop_state) : result loop_state :=
  match cs with
  | [] => Ok st
  | (competitor, rate) :: cs' =>
      let* st' := visit duration cnt competitor rate st in
      for_each duration cnt cs' st'
  end.

(** Line 83: [sum(breaks.values()) == len(breaks)]. *)
Definition is_break (b : gmap string nat) : bool :=
  Nat.eqb (sum_list (map snd (map_to_list b))) (size b).

(** Lines 56-85: [while 1]. *)
Fixpoint while_loop (fuel : nat) (duration : Q)
    (cs : list (string * (nat -> Q))) (cnt : nat) (st : loop_state)
    : result loop_state :=
  match fuel with
  | O => NoFuel
  | S fuel' =>
      let* st' := for_each duration cnt cs st in
      let cnt' := (cnt + 1)%nat in
      if is_break (breaks st') then Ok st'
      else while_loop fuel' duration cs cnt' st'
  end.

(** Lines 53-55: the initial [breaks]. *)
Definition init_breaks (cs : list (string * (nat -> Q))) : gmap string nat :=
  fold_left (fun b c => <[fst c := 0%nat]> b) cs ∅.

(** Lines 50-85: the simulation, up to the sort; the events of the returned
    state are in the order in which they were appended. *)
Definition simulate (self : Competition) (fuel : nat) : result loop_state :=
  while_loop fuel (duration self) (competitors self) 0
    (mkState ∅ (init_breaks (competitors self)) (event_list self)).

(** [Competition.run]: the returned list and the object after the call. *)
Definition run (self : Competition) (fuel : nat)
    : result (list Event * Competition) :=
  let* st := simulate self fuel in
  let sorted := list_sort (events st) in
  let result_event_list := map rounded sorted in
  Ok (result_event_list,
      mkCompetition (competitors self) (duration self) sorted).

(** [Competition.winner] *)
Definition winner (self : Competition) : result string :=
  let* e := list_max (event_list self) in
  Ok (name e).

(* ================================================================== *)
(** ** The scenarios of the specification, evaluated *)

Definition constant (q : Q) : nat -> Q := fun _ => q.

Definition scenario_A : Competition :=
  Competition_init [("A"%string, constant 1); ("B"%string, constant 2)] 5.

Definition scenario_B : Competition :=
  Competition_init [("A"%string, constant 10)] 5.


(* ================================================================== *)
(** ** Orders used in the statements *)

(** The [(elapsed_time, name)] key of [a] is at most that of [b]. *)
Definition key_le (a b : Event) : Prop :=
  elapsed_time a < elapsed_time b
  \/ (elapsed_time a == elapsed_time b /\ String.leb (name a) (name b) = true).

(** The elapsed time of [a] is at most that of [b]. *)
Definition time_le (a b : Event) : Prop := elapsed_time a <= elapsed_time b.

(* ================================================================== *)
(** ** Vocabulary of the loop invariants *)

(** The names of the competitors: the keys of the dict. *)
Definition names (cs : list (string * (nat -> Q))) : list string :=
  map fst cs.

(** [durations[competitor]] after line 65 or 67 of the visit at [cnt]. *)
Definition elapsed_after (cnt : nat) (c : string) (rate : nat -> Q)
    (st : loop_state) : Q :=
  match durations st !! c with
  | Some d0 => d0 + rate cnt
  | None => rate cnt
  end.

(** The event of line 68: a whole hot dog, the [(cnt + 1)]-th. *)
Definition whole_item_event (d : Q) (c : string) (cnt : nat) : Event :=
  mkEvent d c (float_of_nat (cnt + 1)).

(** The event of line 80: the end of the competition. *)
Definition terminal_event (duration : Q) (c : string) (cnt : nat) (d next : Q)
    : Event :=
  mkEvent duration c
    (round_value (float_of_nat (cnt + 1) + (duration - d) / next)
       Decimal_1_00).

(** At the head of the loop with counter [k], competitor [c] is either
    finished, or active with the lookahead of the previous iteration
    satisfied (and no elapsed time yet when [k = 0]). *)
Definition ready (duration : Q) (k : nat) (c : string) (rate : nat -> Q)
    (st : loop_state) : Prop :=
  breaks st !! c = Some 1%nat
  \/ (breaks st !! c = Some 0%nat
      /\ match k with
         | O => durations st !! c = None
         | S _ => exists d, durations st !! c = Some d
                            /\ d + rate k <= duration
         end).

(** An event that ends within the duration, or the first whole-item event
    of a competitor whose first hot dog takes longer than the duration. *)
Definition event_ok (duration : Q) (cs : list (string * (nat -> Q)))
    (e : Event) : Prop :=
  elapsed_time e <= duration
  \/ exists c rate, In (c, rate) cs
       /\ e = whole_item_event (rate 0%nat) c 0
       /\ duration < rate 0%nat.

Definition events_ok (duration : Q) (cs : list (string * (nat -> Q)))
    (st : loop_state) : Prop :=
  forall e, In e (events st) ->
    event_ok duration cs e /\ In (name e) (names cs).

(** [e] is a terminal boundary event of competitor [c]. *)
Definition is_terminal_event (duration : Q) (c : string) (e : Event) : Prop :=
  exists cnt d next, e = terminal_event duration c cnt d next.

(** Every finished competitor has its terminal boundary event. *)
Definition finished_have_terminal (duration : Q) (st : loop_state) : Prop :=
  forall c, breaks st !! c = Some 1%nat ->
    exists e, In e (events st) /\ is_terminal_event duration c e.

(** [breaks] holds flags 0 or 1, for competitors only. *)
Definition breaks_ok (cs : list (string * (nat -> Q))) (st : loop_state)
    : Prop :=
  forall c b, breaks st !! c = Some b ->
    (b = 0%nat \/ b = 1%nat) /\ In c (names cs).

Definition loop_inv (duration : Q) (cs : list (string * (nat -> Q)))
    (k : nat) (st : loop_state) : Prop :=
  (forall c rate, In (c, rate) cs -> ready duration k c rate st)
  /\ events_ok duration cs st
  /\ finished_have_terminal duration st
  /\ breaks_ok cs st.


(** The first hot dog of Alice takes longer than the whole competition. *)
Definition alice_and_bob : Competition :=
  Competition_init [("Alice"%string, constant 10); ("Bob"%string, constant 1)]
    5.

(** Two first hot dogs that finish within the same thousandth of a second. *)
Definition photo_finish : Competition :=
  Competition_init
    [("Bob"%string, constant (10001 # 10000));
     ("Alice"%string, constant (10004 # 10000))]
    (3 # 2).

(** The state with [L] put in front of its event list, and the same for
    the result of a computation. *)
Definition prepend (L : list Event) (st : loop_state) : loop_state :=
  mkState (durations st) (breaks st) (L ++ events st).

Definition prepend_result (L : list Event) (r : result loop_state)
    : result loop_state :=
  match r with
  | Ok st => Ok (prepend L st)
  | Raise e => Raise e
  | NoFuel => NoFuel
  end.

(** The objects obtained from [Competition(competitors, duration)] by any
    number of calls of [run] that returned. *)
Inductive after_runs (cs : list (string * (nat -> Q))) (D : Q)
    : Competition -> Prop :=
| after_init : after_runs cs D (Competition_init cs D)
| after_run (self : Competition) (fuel : nat) (rs : list Event)
    (self' : Competition) :
    after_runs cs D self ->
    run self fuel = Ok (rs, self') ->
    after_runs cs D self'.

(* ================================================================== *)
(** ** Vocabulary of the per-competitor description of [run] *)

(** The value of [durations[competitor]] after the visit at index [n]:
    [rate(0) + ... + rate(n)], added up in the order of line 65. *)
Fixpoint elapsed_sum (rate : nat -> Q) (n : nat) : Q :=
  match n with
  | O => rate 0%nat
  | S n' => elapsed_sum rate n' + rate n
  end.

(** The events of competitor [c] in a list, in the order of the list. *)
Definition own_events (c : string) (l : list Event) : list Event :=
  List.filter (fun e => String.eqb (name e) c) l.

(** The whole-item events of the visits at indices [0 .. k - 1]. *)
Definition whole_events (rate : nat -> Q) (c : string) (k : nat)
    : list Event :=
  map (fun i => whole_item_event (elapsed_sum rate i) c i) (seq 0 k).

(** The events of a competitor who is finished at index [m]. *)
Definition competitor_trace (rate : nat -> Q) (duration : Q) (c : string)
    (m : nat) : list Event :=
  whole_events rate c (S m)
  ++ [terminal_event duration c m (elapsed_sum rate m) (rate (m + 1)%nat)].

(** The test of line 73 at index [i]. *)
Definition crosses (rate : nat -> Q) (duration : Q) (i : nat) : Prop :=
  duration - elapsed_sum rate i - rate (i + 1)%nat < 0.

(** [m] is the first index at which the test of line 73 succeeds. *)
Definition stops_at (rate : nat -> Q) (duration : Q) (m : nat) : Prop :=
  crosses rate duration m
  /\ forall i, (i < m)%nat -> ~ crosses rate duration i.

(** The state of competitor [c] at the head of the loop with counter [k],
    on an object that held no event of [c] before. *)
Definition trace_inv (duration : Q) (k : nat) (c : string)
    (rate : nat -> Q) (st : loop_state) : Prop :=
  (breaks st !! c = Some 0%nat
   /\ own_events c (events st) = whole_events rate c k
   /\ durations st !! c
      = match k with
        | O => None
        | S k' => Some (elapsed_sum rate k')
        end
   /\ forall i, (i < k)%nat -> ~ crosses rate duration i)
  \/ (breaks st !! c = Some 1%nat
      /\ exists m, (m < k)%nat
           /\ stops_at rate duration m
           /\ own_events c (events st) = competitor_trace rate duration c m).

(* ================================================================== *)
(** * The code on binary64 numbers

    The definitions above keep the arithmetic exact.  Where the result of
    the code depends on the rounding of Python's floats, the code is
    embedded a second time, on IEEE 754 binary64 numbers ([spec_float] with
    a mantissa of 53 bits): [+], [-] and [/] round to nearest, ties to
    even, comparisons are those of IEEE 754 (every comparison with a NaN is
    false), and [x / 0.0] raises [ZeroDivisionError].  The duration and
    the values of the rate functions are doubles; a Python int among them
    stands for the double of the same value, with which the arithmetic of
    the code agrees while the ints and their sums are below [2^53].
    [Decimal(value)] is exact, [quantize] rounds half to even, raises
    [InvalidOperation] on an infinity and when the result has more than the
    28 digits of the default context, and keeps a NaN; [float(...)] returns
    the nearest double and keeps the sign of a zero.  [list.sort] is the
    stable insertion sort of the first embedding: it returns the list that
    Python's sort returns when no elapsed time is a NaN. *)

Definition prec64 : Z := 53.
Definition emax64 : Z := 1024.

Definition fadd : spec_float -> spec_float -> spec_float := SFadd prec64 emax64.
Definition fsub : spec_float -> spec_float -> spec_float := SFsub prec64 emax64.
Definition fdiv : spec_float -> spec_float -> spec_float := SFdiv prec64 emax64.
Definition fltb : spec_float -> spec_float -> bool := SFltb.
Definition feqb : spec_float -> spec_float -> bool := SFeqb.

Definition fzero : spec_float := S754_zero false.

(** The double nearest to [m * 2^e]. *)
Definition dyadic (m e : Z) : spec_float :=
  binary_normalize prec64 emax64 m e false.

(** [float(n)] for an int [n]: the nearest double, [OverflowError] when
    [n] is out of the range of the doubles. *)
Definition float64_of_nat (n : nat) : result spec_float :=
  match dyadic (Z.of_nat n) 0 with
  | S754_infinity _ => Raise OverflowError
  | x => Ok x
  end.

(** The exact value of a finite double. *)
Definition float_to_Q (x : spec_float) : Q :=
  match x with
  | S754_finite s m e =>
      (if s then - inject_Z (Z.pos m) else inject_Z (Z.pos m)) * 2 ^ e
  | _ => 0
  end.

(** [float(d)] for the decimal [n * 10^(-p)] with the sign [s] (the sign is
    kept when [n] is zero). *)
Definition Decimal_to_float64 (s : bool) (n : Z) (p : nat) : spec_float :=
  match n with
  | Z0 => S754_zero s
  | Zpos a | Zneg a =>
      fdiv (S754_finite s a 0) (S754_finite false (pow10 p) 0)
  end.

(** [round_value(value, precision)] on a double. *)
Definition round_value64 (value : spec_float) (precision : Decimal)
    : result spec_float :=
  match value with
  | S754_nan => Ok S754_nan
  | S754_infinity _ => Raise InvalidOperation
  | S754_zero s => Ok (S754_zero s)
  | S754_finite s _ _ =>
      let n :=
        round_half_even
          (float_to_Q value * inject_Z (Z.pos (pow10 (places precision)))) in
      if (10 ^ 28 <=? Z.abs n)%Z then Raise InvalidOperation
      else Ok (Decimal_to_float64 s n (places precision))
  end.

Record Event64 : Type := mkEvent64 {
  elapsed_time64 : spec_float;
  name64 : string;
  total_hot_dogs_eaten64 : spec_float
}.

(** [Event.__eq__] *)
Definition Event_eq64 (self other : Event64) : bool :=
  feqb (elapsed_time64 self) (elapsed_time64 other)
  && String.eqb (name64 self) (name64 other)
  && feqb (total_hot_dogs_eaten64 self) (total_hot_dogs_eaten64 other).

(** [Event.__lt__] *)
Definition Event_lt64 (self other : Event64) : bool :=
  if feqb (elapsed_time64 self) (elapsed_time64 other)
  then String.ltb (name64 self) (name64 other)
  else fltb (elapsed_time64 self) (elapsed_time64 other).

(** [Event.rounded()] *)
Definition rounded64 (self : Event64) : result Event64 :=
  let* t := round_value64 (elapsed_time64 self) Decimal_1_000 in
  let* n := round_value64 (total_hot_dogs_eaten64 self) Decimal_1_000 in
  Ok (mkEvent64 t (name64 self) n).

Fixpoint insert_sorted64 (x : Event64) (l : list Event64) : list Event64 :=
  match l with
  | [] => [x]
  | y :: l' =>
      if Event_lt64 x y then x :: y :: l' else y :: insert_sorted64 x l'
  end.

Definition list_sort64 (l : list Event64) : list Event64 :=
  fold_left (fun acc x => insert_sorted64 x acc) l [].

Definition list_max64 (l : list Event64) : result Event64 :=
  match l with
  | [] => Raise ValueError
  | x :: l' =>
      Ok (fold_left
            (fun best item => if Event_lt64 best item then item else best)
            l' x)
  end.

Record Competition64 : Type := mkCompetition64 {
  competitors64 : list (string * (nat -> spec_float));
  duration64 : spec_float;
  event_list64 : list Event64
}.

(** [Competition.__init__] *)
Definition Competition_init64
    (competitors : list (string * (nat -> spec_float)))
    (duration : spec_float) : Competition64 :=
  mkCompetition64 competitors duration [].

Record loop_state64 : Type := mkState64 {
  durations64 : gmap string spec_float;
  breaks64 : gmap string nat;
  events64 : list Event64
}.

(** [durations[competitor]] after line 65 or 67 of the visit at [cnt]. *)
Definition elapsed_after64 (cnt : nat) (c : string)
    (rate : nat -> spec_float) (st : loop_state64) : spec_float :=
  match durations64 st !! c with
  | Some d0 => fadd d0 (rate cnt)
  | None => rate cnt
  end.

(** Lines 60-81 on doubles. *)
Definition visit64 (duration : spec_float) (cnt : nat) (competitor : string)
    (rate : nat -> spec_float) (st : loop_state64) : result loop_state64 :=
  match breaks64 st !! competitor with
  | None => Raise KeyError
  | Some b =>
      if Nat.eqb b 0 then
        let current_eaten_time := rate cnt in
        let next_eaten_time := rate (cnt + 1)%nat in
        let d :=
          match durations64 st !! competitor with
          | Some d0 => fadd d0 current_eaten_time
          | None => current_eaten_time
          end in
        let durations' := <[competitor := d]> (durations64 st) in
        let* k := float64_of_nat (cnt + 1) in
        let event := mkEvent64 d competitor k in
        let events' := events64 st ++ [event] in
        let diff := fsub (fsub duration d) next_eaten_time in
        if fltb diff fzero then
          let breaks' := <[competitor := 1%nat]> (breaks64 st) in
          let duration_left := fsub duration d in
          if feqb next_eaten_time fzero then Raise ZeroDivisionError
          else
            let* total_hot_dog_eaten :=
              round_value64 (fadd k (fdiv duration_left next_eaten_time))
                Decimal_1_00 in
            let event := mkEvent64 duration competitor total_hot_dog_eaten in
            Ok (mkState64 durations' breaks' (events' ++ [event]))
        else Ok (mkState64 durations' (breaks64 st) events')
      else Ok st
  end.

Fixpoint for_each64 (duration : spec_float) (cnt : nat)
    (cs : list (string * (nat -> spec_float))) (st : loop_state64)
    : result loop_state64 :=
  match cs with
  | [] => Ok st
  | (competitor, rate) :: cs' =>
      let* st' := visit64 duration cnt competitor rate st in
      for_each64 duration cnt cs' st'
  end.

Fixpoint while_loop64 (fuel : nat) (duration : spec_float)
    (cs : list (string * (nat -> spec_float))) (cnt : nat)
    (st : loop_state64) : result loop_state64 :=
  match fuel with
  | O => NoFuel
  | S fuel' =>
      let* st' := for_each64 duration cnt cs st in
      let cnt' := (cnt + 1)%nat in
      if is_break (breaks64 st') then Ok st'
      else while_loop64 fuel' duration cs cnt' st'
  end.

Definition init_breaks64 (cs : list (string * (nat -> spec_float)))
    : gmap string nat :=
  fold_left (fun b c => <[fst c := 0%nat]> b) cs ∅.

Definition simulate64 (self : Competition64) (fuel : nat)
    : result loop_state64 :=
  while_loop64 fuel (duration64 self) (competitors64 self) 0
    (mkState64 ∅ (init_breaks64 (competitors64 self)) (event_list64 self)).

(** Line 88: [list(map(lambda x: x.rounded(), ...))]. *)
Fixpoint map_rounded64 (l : list Event64) : result (list Event64) :=
  match l with
  | [] => Ok []
  | e :: l' =>
      let* r := rounded64 e in
      let* rs := map_rounded64 l' in
      Ok (r :: rs)
  end.

(** [Competition.run] on doubles. *)
Definition run64 (self : Competition64) (fuel : nat)
    : result (list Event64 * Competition64) :=
  let* st := simulate64 self fuel in
  let sorted := list_sort64 (events64 st) in
  let* result_event_list := map_rounded64 sorted in
  Ok (result_event_list,
      mkCompetition64 (competitors64 self) (duration64 self) sorted).

(** [Competition.winner] on doubles. *)
Definition winner64 (self : Competition64) : result string :=
  let* e := list_max64 (event_list64 self) in
  Ok (name64 e).


Definition names64 (cs : list (string * (nat -> spec_float))) : list string :=
  map fst cs.

(** [durations[competitor]] after the visit at [cnt] of a competitor that
    was active in every iteration up to [cnt]: the float sum, from the
    left, of [rate 0 .. rate cnt]. *)
Fixpoint elapsed_sum64 (rate : nat -> spec_float) (cnt : nat) : spec_float :=
  match cnt with
  | O => rate 0%nat
  | S k => fadd (elapsed_sum64 rate k) (rate (S k))
  end.

(** [diff] of line 72 in the visit at [cnt]. *)
Definition lookahead64 (duration : spec_float) (rate : nat -> spec_float)
    (cnt : nat) : spec_float :=
  fsub (fsub duration (elapsed_sum64 rate cnt)) (rate (cnt + 1)%nat).








(** The first hot dog of Alice takes longer than the whole competition. *)
Definition alice_and_bob64 : Competition64 :=
  Competition_init64
    [("Alice"%string, fun _ => dyadic 10 0); ("Bob"%string, fun _ => dyadic 1 0)]
    (dyadic 5 0).




(** The events of competitor [c] in a list, in the order of the list. *)
Definition own_events64 (c : string) (l : list Event64) : list Event64 :=
  List.filter (fun e => String.eqb (name64 e) c) l.

(** [float(cnt + 1)], where it is in the range of the doubles. *)
Definition count64 (cnt : nat) : spec_float := dyadic (Z.of_nat (cnt + 1)) 0.

(** The whole-item events of the visits at indices [0 .. k - 1]. *)
Definition whole_events64 (rate : nat -> spec_float) (c : string) (k : nat)
    : list Event64 :=
  map (fun i => mkEvent64 (elapsed_sum64 rate i) c (count64 i)) (seq 0 k).

(** The events of a competitor who is finished at index [m] with the
    stored count [total]. *)
Definition competitor_trace64 (rate : nat -> spec_float)
    (duration : spec_float) (c : string) (m : nat) (total : spec_float)
    : list Event64 :=
  whole_events64 rate c (S m) ++ [mkEvent64 duration c total].

(** [m] is the first index at which the test of line 73 is true. *)
Definition stops_at64 (duration : spec_float) (rate : nat -> spec_float)
    (m : nat) : Prop :=
  fltb (lookahead64 duration rate m) fzero = true
  /\ forall i, (i < m)%nat -> fltb (lookahead64 duration rate i) fzero = false.

(** The count that line 79 stores at index [m]. *)
Definition stored_count64 (duration : spec_float) (rate : nat -> spec_float)
    (m : nat) : result spec_float :=
  round_value64
    (fadd (count64 m)
          (fdiv (fsub duration (elapsed_sum64 rate m)) (rate (m + 1)%nat)))
    Decimal_1_00.

(** The state of competitor [c] at the head of the loop with counter [k],
    on an object whose event list was [el] before the call. *)
Definition trace_inv64 (duration : spec_float) (el : list Event64) (k : nat)
    (c : string) (rate : nat -> spec_float) (st : loop_state64) : Prop :=
  (breaks64 st !! c = Some 0%nat
   /\ own_events64 c (events64 st)
      = own_events64 c el ++ whole_events64 rate c k
   /\ durations64 st !! c
      = match k with
        | O => None
        | S k' => Some (elapsed_sum64 rate k')
        end
   /\ forall i, (i < k)%nat -> fltb (lookahead64 duration rate i) fzero = false)
  \/ (breaks64 st !! c = Some 1%nat
      /\ exists m total,
           (m < k)%nat
           /\ stops_at64 duration rate m
           /\ feqb (rate (m + 1)%nat) fzero = false
           /\ stored_count64 duration rate m = Ok total
           /\ own_events64 c (events64 st)
              = own_events64 c el ++ competitor_trace64 rate duration c m total).

(** The flags of [breaks] are 0 or 1. *)
Definition flags_ok (b : gmap string nat) : Prop :=
  forall c v, b !! c = Some v -> (v <= 1)%nat.

(** A competitor who needs no time for a hot dog. *)
Definition no_time_at_all : Competition64 :=
  Competition_init64 [("Alice"%string, fun _ => fzero)] (dyadic 5 0).

(** Every hot dog takes [10^30] seconds. *)
Definition very_slow : Competition64 :=
  Competition_init64 [("Alice"%string, fun _ => dyadic (10 ^ 30) 0)]
    (dyadic 5 0).

(** The exceptions that [run] can raise, with the cause of the division by
    zero. *)
Definition raised_by_run (cs : list (string * (nat -> spec_float)))
    (e : exn) : Prop :=
  (e = ZeroDivisionError
   /\ exists c rate n, In (c, rate) cs /\ feqb (rate (n + 1)%nat) fzero = true)
  \/ e = InvalidOperation
  \/ e = OverflowError.

(** The keys of [breaks] are names of competitors. *)
Definition keys_ok (cs : list (string * (nat -> spec_float)))
    (b : gmap string nat) : Prop :=
  forall c v, b !! c = Some v -> In c (names64 cs).

(* ================================================================== *)
(** ** Rounding half to even *)

Section Rounding.





Lemma round_half_even_mono (x y : Q) :
  x <= y -> (round_half_even x <= round_half_even y)%Z.
Proof.
  intros Hxy. pose proof (Qfloor_resp_le x y Hxy) as Hf.
  unfold round_half_even.
  pose proof (Qfloor_le x) as Hxlo. pose proof (Qlt_floor y) as Hyhi.
  destruct (Z.eq_dec (Qfloor x) (Qfloor y)) as [Heq|Hne].
  - rewrite Heq in *.
    destruct (Qcompare_spec (x - inject_Z (Qfloor y)) (1 # 2)) as [He|Hl|Hg];
    destruct (Qcompare_spec (y - inject_Z (Qfloor y)) (1 # 2)) as [He'|Hl'|Hg'];
      try destruct (Z.even (Qfloor y)); try lia; lra.
  - destruct (Qcompare (x - inject_Z (Qfloor x)) (1 # 2));
    destruct (Qcompare (y - inject_Z (Qfloor y)) (1 # 2));
      try destruct (Z.even (Qfloor x)); try destruct (Z.even (Qfloor y)); lia.
Qed.

Lemma pow10_pos_inject (p : nat) : 0 < inject_Z (Z.pos (pow10 p)).
Proof. unfold Qlt. simpl. lia. Qed.

(** [round_value] returns a decimal with the places of the precision. *)
Lemma round_value_eq (v : Q) (precision : Decimal) :
  round_value v precision
  = round_half_even (v * inject_Z (Z.pos (pow10 (places precision))))
    # pow10 (places precision).
Proof. reflexivity. Qed.



Lemma round_value_mono (v w : Q) (precision : Decimal) :
  v <= w -> round_value v precision <= round_value w precision.
Proof.
  intros Hvw. rewrite !round_value_eq.
  unfold Qle. simpl.
  apply Z.mul_le_mono_nonneg_r; [lia|].
  apply round_half_even_mono.
  apply Qmult_le_compat_r; [exact Hvw|].
  apply Qlt_le_weak, pow10_pos_inject.
Qed.

End Rounding.

(* ================================================================== *)
(** ** The order of events *)

Section EventOrder.

Lemma string_leb_iff (s t : string) :
  String.leb s t = true <-> s = t \/ String_as_OT.lt s t.
Proof.
  unfold String.leb.
  destruct (String.compare s t) eqn:Hc.
  - apply String_as_OT.cmp_eq in Hc. tauto.
  - apply String_as_OT.cmp_lt in Hc. tauto.
  - split; [discriminate|]. intros [->|Hlt].
    + assert (He : String_as_OT.cmp t t = Eq) by (apply String_as_OT.cmp_eq; reflexivity).
      unfold String_as_OT.cmp in He. congruence.
    + apply String_as_OT.cmp_lt in Hlt. unfold String_as_OT.cmp in Hlt.
      congruence.
Qed.

Lemma string_ltb_iff (s t : string) :
  String.ltb s t = true <-> String_as_OT.lt s t.
Proof.
  unfold String.ltb. rewrite <- String_as_OT.cmp_lt. unfold String_as_OT.cmp.
  destruct (String.compare s t); split; congruence.
Qed.

Lemma string_ltb_false_iff (s t : string) :
  String.ltb s t = false <-> String.leb t s = true.
Proof.
  unfold String.ltb, String.leb. rewrite (String.compare_antisym s t).
  destruct (String.compare t s); simpl; split; congruence.
Qed.

Lemma string_leb_refl (s : string) : String.leb s s = true.
Proof. apply string_leb_iff. left. reflexivity. Qed.

Lemma string_leb_trans (s t u : string) :
  String.leb s t = true -> String.leb t u = true -> String.leb s u = true.
Proof.
  rewrite !string_leb_iff. intros [->|H1] [->|H2]; auto.
  right. eapply String_as_OT.lt_trans; eassumption.
Qed.

Lemma string_leb_total (s t : string) :
  String.leb s t = true \/ String.leb t s = true.
Proof.
  destruct (String.leb s t) eqn:H; [left; reflexivity|right].
  unfold String.leb in *. rewrite (String.compare_antisym t s).
  destruct (String.compare s t); simpl; congruence.
Qed.

Lemma string_leb_antisym (s t : string) :
  String.leb s t = true -> String.leb t s = true -> s = t.
Proof.
  rewrite !string_leb_iff. intros [->|H1] [H2|H2]; auto.
  exfalso. apply (String_as_OT.lt_not_eq s s); [|reflexivity].
  eapply String_as_OT.lt_trans; eassumption.
Qed.

Lemma Qltb_true_iff (x y : Q) : Qltb x y = true <-> x < y.
Proof.
  unfold Qltb. destruct (Qle_bool y x) eqn:H; simpl.
  - apply Qle_bool_iff in H. split; [discriminate|lra].
  - split; [intros _|reflexivity].
    destruct (Qlt_le_dec x y) as [Hlt|Hle]; [exact Hlt|].
    apply Qle_bool_iff in Hle. congruence.
Qed.

Lemma Qltb_false_iff (x y : Q) : Qltb x y = false <-> y <= x.
Proof.
  destruct (Qltb x y) eqn:H.
  - apply Qltb_true_iff in H. split; [discriminate|lra].
  - split; [intros _|reflexivity].
    destruct (Qlt_le_dec x y) as [Hlt|Hle]; [|exact Hle].
    apply Qltb_true_iff in Hlt. congruence.
Qed.

(** [a.__lt__(b)] is false exactly when the key of [b] is at most the key
    of [a]. *)
Lemma Event_lt_false_iff (a b : Event) :
  Event_lt a b = false <-> key_le b a.
Proof.
  unfold Event_lt, key_le.
  destruct (Qeq_bool (elapsed_time a) (elapsed_time b)) eqn:He.
  - apply Qeq_bool_iff in He. rewrite string_ltb_false_iff.
    split; [intros H; right; split; [lra|exact H]|].
    intros [H|[_ H]]; [lra|exact H].
  - apply Qeq_bool_neq in He. rewrite Qltb_false_iff.
    split; [intros H; left; lra|].
    intros [H|[H _]]; [lra|]. exfalso. apply He. lra.
Qed.

Lemma Event_lt_true_key_le (a b : Event) :
  Event_lt a b = true -> key_le a b.
Proof.
  unfold Event_lt, key_le.
  destruct (Qeq_bool (elapsed_time a) (elapsed_time b)) eqn:He.
  - apply Qeq_bool_iff in He. intros H. right. split; [exact He|].
    apply string_leb_iff. right. apply string_ltb_iff. exact H.
  - intros H. left. apply Qltb_true_iff. exact H.
Qed.

Lemma key_le_refl (a : Event) : key_le a a.
Proof. right. split; [reflexivity|apply string_leb_refl]. Qed.

Lemma key_le_trans (a b c : Event) : key_le a b -> key_le b c -> key_le a c.
Proof.
  unfold key_le. intros [H1|[H1 N1]] [H2|[H2 N2]].
  - left. lra.
  - left. lra.
  - left. lra.
  - right. split; [lra|]. eapply string_leb_trans; eassumption.
Qed.

Lemma key_le_total (a b : Event) : key_le a b \/ key_le b a.
Proof.
  destruct (Event_lt a b) eqn:H.
  - left. apply Event_lt_true_key_le. exact H.
  - right. apply Event_lt_false_iff. exact H.
Qed.

End EventOrder.

(* ================================================================== *)
(** ** [list.sort]: a sorted permutation *)

Section Sorting.

Lemma insert_sorted_perm (x : Event) (l : list Event) :
  Permutation (insert_sorted x l) (x :: l).
Proof.
  induction l as [|y l IH]; simpl; [reflexivity|].
  destruct (Event_lt x y); [reflexivity|].
  rewrite IH. apply perm_swap.
Qed.

Lemma insert_sorted_HdRel (x a : Event) (l : list Event) :
  key_le a x -> HdRel key_le a l -> HdRel key_le a (insert_sorted x l).
Proof.
  intros Hax Hl. destruct l as [|y l]; simpl; [constructor; exact Hax|].
  destruct (Event_lt x y); constructor; [exact Hax|].
  inversion Hl; assumption.
Qed.

Lemma insert_sorted_Sorted (x : Event) (l : list Event) :
  Sorted key_le l -> Sorted key_le (insert_sorted x l).
Proof.
  induction l as [|y l IH]; simpl; intros Hs.
  - repeat constructor.
  - destruct (Event_lt x y) eqn:Hxy.
    + constructor; [exact Hs|]. constructor.
      apply Event_lt_true_key_le. exact Hxy.
    + inversion Hs as [|? ? Hs' Hhd]; subst.
      constructor; [apply IH; exact Hs'|].
      apply insert_sorted_HdRel; [|exact Hhd].
      apply Event_lt_false_iff. exact Hxy.
Qed.

Lemma fold_insert_perm (l acc : list Event) :
  Permutation (fold_left (fun a x => insert_sorted x a) l acc) (acc ++ l).
Proof.
  revert acc. induction l as [|x l IH]; intros acc; simpl.
  - rewrite app_nil_r. reflexivity.
  - rewrite IH, insert_sorted_perm.
    change (x :: acc) with ([x] ++ acc).
    rewrite (Permutation_app_comm [x] acc), <- app_assoc. reflexivity.
Qed.

Lemma fold_insert_Sorted (l acc : list Event) :
  Sorted key_le acc ->
  Sorted key_le (fold_left (fun a x => insert_sorted x a) l acc).
Proof.
  revert acc. induction l as [|x l IH]; intros acc Hs; simpl; [exact Hs|].
  apply IH, insert_sorted_Sorted, Hs.
Qed.

Lemma list_sort_perm (l : list Event) : Permutation (list_sort l) l.
Proof. unfold list_sort. apply fold_insert_perm. Qed.

Lemma list_sort_Sorted (l : list Event) : Sorted key_le (list_sort l).
Proof. unfold list_sort. apply fold_insert_Sorted. constructor. Qed.

Lemma list_sort_In (e : Event) (l : list Event) :
  In e (list_sort l) <-> In e l.
Proof.
  split; apply Permutation_in;
    [apply list_sort_perm | symmetry; apply list_sort_perm].
Qed.

(** Rounding keeps the order of the elapsed times. *)
Lemma rounded_time_le (a b : Event) :
  key_le a b -> time_le (rounded a) (rounded b).
Proof.
  unfold key_le, time_le, rounded, rounded_to. simpl.
  intros H. apply round_value_mono. destruct H as [H|[H _]]; lra.
Qed.

Lemma map_rounded_Sorted (l : list Event) :
  Sorted key_le l -> Sorted time_le (map rounded l).
Proof.
  induction 1 as [|a l Hs IH Hhd]; simpl; constructor; [exact IH|].
  destruct Hhd; simpl; constructor. apply rounded_time_le. assumption.
Qed.

End Sorting.

(* ================================================================== *)
(** ** [max] of a list of events *)

Section Maximum.

Lemma fold_max_spec (l : list Event) (x : Event) :
  let m := fold_left (fun best item => if Event_lt best item then item else best)
                     l x in
  In m (x :: l) /\ key_le x m /\ forall e, In e l -> key_le e m.
Proof.
  revert x. induction l as [|y l IH]; intros x; simpl.
  - split; [left; reflexivity|]. split; [apply key_le_refl|]. intros e [].
  - destruct (Event_lt x y) eqn:Hxy.
    + destruct (IH y) as (Hin & Hy & Hall).
      split; [right; exact Hin|]. split.
      * eapply key_le_trans; [|exact Hy]. apply Event_lt_true_key_le, Hxy.
      * intros e [<-|He]; [exact Hy|apply Hall, He].
    + destruct (IH x) as (Hin & Hx & Hall).
      split; [destruct Hin as [<-|Hin]; [left; reflexivity|right; right; exact Hin]|].
      split; [exact Hx|].
      intros e [<-|He]; [|apply Hall, He].
      eapply key_le_trans; [|exact Hx]. apply Event_lt_false_iff, Hxy.
Qed.

(** [max] fails on the empty list only, and otherwise returns an element
    whose key is at least every key of the list. *)
Lemma list_max_spec (l : list Event) :
  l <> [] ->
  exists m, list_max l = Ok m /\ In m l /\ forall e, In e l -> key_le e m.
Proof.
  destruct l as [|x l]; [congruence|]. intros _.
  pose proof (fold_max_spec l x) as H. simpl in H.
  destruct H as (Hin & Hx & Hall).
  eexists. split; [reflexivity|]. split; [exact Hin|].
  intros e [<-|He]; [exact Hx|apply Hall, He].
Qed.

End Maximum.

(* ================================================================== *)
(** ** One visit of a competitor *)

Section Visit.

Variable D : Q.

(** The three ways in which a visit returns. *)
Lemma visit_Ok (cnt : nat) (c : string) (f : nat -> Q) (st st' : loop_state) :
  visit D cnt c f st = Ok st' ->
  (exists b, breaks st !! c = Some b /\ b <> 0%nat /\ st' = st)
  \/ (breaks st !! c = Some 0%nat
      /\ let d := elapsed_after cnt c f st in
         let next := f (cnt + 1)%nat in
         (D - d - next < 0 /\ ~ next == 0
          /\ st' = mkState (<[c := d]> (durations st))
                           (<[c := 1%nat]> (breaks st))
                           (events st ++ [whole_item_event d c cnt;
                                          terminal_event D c cnt d next]))
         \/ (0 <= D - d - next
             /\ st' = mkState (<[c := d]> (durations st)) (breaks st)
                              (events st ++ [whole_item_event d c cnt]))).
Proof.
  unfold visit. fold (elapsed_after cnt c f st).
  destruct (breaks st !! c) as [b|] eqn:Hb; [|discriminate].
  destruct (Nat.eqb b 0) eqn:Hb0.
  - apply Nat.eqb_eq in Hb0. subst b. intros H. right. split; [reflexivity|].
    cbv zeta.
    destruct (Qltb (D - elapsed_after cnt c f st - f (cnt + 1)%nat) 0) eqn:Hd.
    + apply Qltb_true_iff in Hd.
      destruct (Qeq_bool (f (cnt + 1)%nat) 0) eqn:Hn; [discriminate|].
      apply Qeq_bool_neq in Hn. left. split; [exact Hd|]. split; [exact Hn|].
      injection H as <-. rewrite <- app_assoc. reflexivity.
    + apply Qltb_false_iff in Hd. right. split; [exact Hd|].
      injection H as <-. reflexivity.
  - apply Nat.eqb_neq in Hb0. intros H. injection H as <-.
    left. exists b. auto.
Qed.


(** The event list only grows, by events of the visited competitor. *)
Lemma visit_events (cnt : nat) (c : string) (f : nat -> Q) (st st' : loop_state) :
  visit D cnt c f st = Ok st' ->
  exists new, events st' = events st ++ new
              /\ forall e, In e new -> name e = c.
Proof.
  intros H. apply visit_Ok in H.
  destruct H as [(b & _ & _ & ->)|(_ & [(_ & _ & ->)|(_ & ->)])]; simpl.
  - exists []. rewrite app_nil_r. split; [reflexivity|]. intros e [].
  - eexists. split; [reflexivity|]. intros e [<-|[<-|[]]]; reflexivity.
  - eexists. split; [reflexivity|]. intros e [<-|[]]; reflexivity.
Qed.

(** A visit leaves the entries of the other competitors alone. *)
Lemma visit_other (cnt : nat) (c c' : string) (f : nat -> Q)
    (st st' : loop_state) :
  visit D cnt c f st = Ok st' -> c' <> c ->
  durations st' !! c' = durations st !! c'
  /\ breaks st' !! c' = breaks st !! c'.
Proof.
  intros H Hne. apply visit_Ok in H.
  destruct H as [(b & _ & _ & ->)|(_ & [(_ & _ & ->)|(_ & ->)])]; simpl;
    rewrite ?lookup_insert_ne by congruence; auto.
Qed.

End Visit.

(* ================================================================== *)
(** ** The invariants of the loop *)

Section LoopInvariant.

Variable D : Q.
Variable cs : list (string * (nat -> Q)).

Lemma In_names (c : string) (f : nat -> Q) (l : list (string * (nat -> Q))) :
  In (c, f) l -> In c (names l).
Proof. intros H. apply (in_map fst) in H. exact H. Qed.

Lemma ready_ext (k : nat) (c : string) (f : nat -> Q) (st st' : loop_state) :
  durations st' !! c = durations st !! c ->
  breaks st' !! c = breaks st !! c ->
  ready D k c f st -> ready D k c f st'.
Proof. unfold ready. intros -> ->. auto. Qed.

Lemma visit_inv (k : nat) (c : string) (f : nat -> Q) (st st' : loop_state) :
  In (c, f) cs ->
  ready D k c f st ->
  events_ok D cs st -> finished_have_terminal D st -> breaks_ok cs st ->
  visit D k c f st = Ok st' ->
  ready D (S k) c f st'
  /\ events_ok D cs st' /\ finished_have_terminal D st' /\ breaks_ok cs st'.
Proof.
  intros Hin Hr He Ht Hb Hv. pose proof (In_names _ _ _ Hin) as Hname.
  apply visit_Ok in Hv.
  destruct Hv as [(b & Hbc & Hb0 & ->)|(Hbc & Hv)].
  - split; [|auto]. destruct Hr as [Hr|[Hr _]]; [left; exact Hr|congruence].
  - destruct Hr as [Hr|[_ Hr]]; [congruence|].
    set (d := elapsed_after k c f st) in *.
    assert (Hwhole : event_ok D cs (whole_item_event d c k)).
    { subst d. unfold elapsed_after. destruct k as [|k].
      - rewrite Hr. destruct (Qlt_le_dec D (f 0%nat)) as [Hlt|Hle].
        + right. exists c, f. auto.
        + left. exact Hle.
      - destruct Hr as (d0 & -> & Hd0). left. exact Hd0. }
    cbv zeta in Hv. destruct Hv as [(Hd & Hn & ->)|(Hd & ->)].
    + split; [left; simpl; apply lookup_insert_eq|]. split; [|split].
      * intros e. simpl. rewrite in_app_iff.
        intros [He0|[<-|[<-|[]]]]; [apply He, He0| |]; split; auto.
        left. simpl. lra.
      * intros c'. simpl. destruct (string_dec c' c) as [->|Hne].
        -- intros _. exists (terminal_event D c k d (f (k + 1)%nat)).
           split; [|exists k, d, (f (k + 1)%nat); reflexivity].
           rewrite in_app_iff. right. right. left. reflexivity.
        -- rewrite lookup_insert_ne by congruence. intros Hc'.
           destruct (Ht c' Hc') as (e & He0 & Ht0).
           exists e. rewrite in_app_iff. auto.
      * intros c' b. simpl. destruct (string_dec c' c) as [->|Hne].
        -- rewrite lookup_insert_eq. intros [= <-]. auto.
        -- rewrite lookup_insert_ne by congruence. apply Hb.
    + split; [|split; [|split]].
      * right. simpl. split; [exact Hbc|].
        exists d. rewrite lookup_insert_eq. split; [reflexivity|].
        rewrite <- Nat.add_1_r. lra.
      * intros e. simpl. rewrite in_app_iff.
        intros [He0|[<-|[]]]; [apply He, He0|]. split; auto.
      * intros c' Hc'. simpl in Hc'. destruct (Ht c' Hc') as (e & He0 & Ht0).
        exists e. simpl. rewrite in_app_iff. auto.
      * exact Hb.
Qed.

Lemma for_each_inv (k : nat) (l : list (string * (nat -> Q))) :
  NoDup (names l) -> incl l cs ->
  forall st st',
  for_each D k l st = Ok st' ->
  (forall c f, In (c, f) l -> ready D k c f st) ->
  events_ok D cs st -> finished_have_terminal D st -> breaks_ok cs st ->
  (forall c f, In (c, f) l -> ready D (S k) c f st')
  /\ events_ok D cs st' /\ finished_have_terminal D st' /\ breaks_ok cs st'
  /\ (forall c, ~ In c (names l) ->
        durations st' !! c = durations st !! c
        /\ breaks st' !! c = breaks st !! c).
Proof.
  induction l as [|[c f] l IH]; intros Hnd Hincl st st' Hfor Hr He Ht Hb.
  - injection Hfor as <-.
    split; [intros c f []|]. split; [exact He|]. split; [exact Ht|].
    split; [exact Hb|]. intros c _. split; reflexivity.
  - simpl in Hfor. destruct (visit D k c f st) as [st1| |] eqn:Hv;
      try discriminate. simpl in Hfor.
    simpl in Hnd. apply NoDup_cons in Hnd. destruct Hnd as [Hc Hnd].
    rewrite list_elem_of_In in Hc.
    assert (Hin : In (c, f) cs) by (apply Hincl; left; reflexivity).
    destruct (visit_inv k c f st st1 Hin (Hr c f (or_introl eq_refl)) He Ht Hb Hv)
      as (Hr1 & He1 & Ht1 & Hb1).
    assert (Hr' : forall c' f', In (c', f') l -> ready D k c' f' st1).
    { intros c' f' Hin'.
      assert (Hne : c' <> c) by (intros ->; apply Hc; eapply In_names; eauto).
      destruct (visit_other D k c c' f st st1 Hv Hne) as [Hd1 Hb1'].
      eapply ready_ext; [exact Hd1|exact Hb1'|]. apply Hr. right. exact Hin'. }
    destruct (IH Hnd (fun x Hx => Hincl x (or_intror Hx)) st1 st' Hfor Hr' He1 Ht1 Hb1)
      as (Hr2 & He2 & Ht2 & Hb2 & Hsame).
    split; [|split; [exact He2|split; [exact Ht2|split; [exact Hb2|]]]].
    + intros c' f' [[= <- <-]|Hin'].
      * destruct (Hsame c Hc) as [Hd' Hb'].
        eapply ready_ext; [exact Hd'|exact Hb'|exact Hr1].
      * apply Hr2. exact Hin'.
    + intros c' Hc'. simpl in Hc'.
      assert (Hne : c' <> c) by (intros ->; apply Hc'; left; reflexivity).
      destruct (visit_other D k c c' f st st1 Hv Hne) as [Hd1 Hb1'].
      destruct (Hsame c') as [Hd2 Hb2']; [intros H; apply Hc'; right; exact H|].
      split; congruence.
Qed.

(** Line 83 breaks the loop exactly when all flags are 1. *)
Lemma sum_list_le_length (l : list nat) :
  Forall (fun v => v <= 1)%nat l -> (sum_list l <= length l)%nat.
Proof. induction 1; simpl; lia. Qed.

Lemma sum_list_all_one (l : list nat) :
  Forall (fun v => v <= 1)%nat l -> sum_list l = length l ->
  Forall (fun v => v = 1%nat) l.
Proof.
  induction 1 as [|v l Hv Hl IH]; simpl; intros Hs; constructor.
  - pose proof (sum_list_le_length l Hl). lia.
  - apply IH. pose proof (sum_list_le_length l Hl). lia.
Qed.

Lemma sum_list_ones (l : list nat) :
  Forall (fun v => v = 1%nat) l -> sum_list l = length l.
Proof. induction 1; simpl; lia. Qed.

Lemma breaks_values_Forall (P : nat -> Prop) (b : gmap string nat) :
  (forall c v, b !! c = Some v -> P v) <->
  Forall P (map snd (map_to_list b)).
Proof.
  rewrite List.Forall_forall. split.
  - intros H v Hv. apply in_map_iff in Hv. destruct Hv as ([c v'] & <- & Hin).
    apply (H c). apply elem_of_map_to_list, list_elem_of_In. exact Hin.
  - intros H c v Hcv. apply H. apply in_map_iff. exists (c, v).
    split; [reflexivity|]. apply list_elem_of_In, elem_of_map_to_list. exact Hcv.
Qed.

Lemma breaks_values_length (b : gmap string nat) :
  length (map snd (map_to_list b)) = size b.
Proof. rewrite length_map. apply length_map_to_list. Qed.

Lemma is_break_all_finished (b : gmap string nat) :
  (forall c v, b !! c = Some v -> (v <= 1)%nat) ->
  is_break b = true ->
  forall c v, b !! c = Some v -> v = 1%nat.
Proof.
  intros Hle Hbr. apply (breaks_values_Forall (fun v => v = 1%nat)).
  apply sum_list_all_one; [apply breaks_values_Forall; exact Hle|].
  unfold is_break in Hbr. apply Nat.eqb_eq in Hbr.
  rewrite breaks_values_length. exact Hbr.
Qed.

Lemma all_finished_is_break (b : gmap string nat) :
  (forall c v, b !! c = Some v -> v = 1%nat) -> is_break b = true.
Proof.
  intros H. unfold is_break. apply Nat.eqb_eq.
  rewrite <- breaks_values_length. apply sum_list_ones.
  apply breaks_values_Forall. exact H.
Qed.

Lemma while_loop_inv (fuel : nat) :
  NoDup (names cs) ->
  forall k st st',
  loop_inv D cs k st ->
  while_loop fuel D cs k st = Ok st' ->
  exists k', loop_inv D cs k' st' /\ is_break (breaks st') = true.
Proof.
  intros Hnd. induction fuel as [|fuel IH]; intros k st st' Hinv Hw;
    [discriminate|].
  simpl in Hw. destruct (for_each D k cs st) as [st1| |] eqn:Hfor;
    try discriminate. simpl in Hw.
  destruct Hinv as (Hr & He & Ht & Hb).
  destruct (for_each_inv k cs Hnd (incl_refl cs) st st1 Hfor Hr He Ht Hb)
    as (Hr1 & He1 & Ht1 & Hb1 & _).
  assert (Hinv1 : loop_inv D cs (S k) st1).
  { split; [exact Hr1|]. split; [exact He1|]. split; [exact Ht1|exact Hb1]. }
  destruct (is_break (breaks st1)) eqn:Hbr.
  - injection Hw as <-. exists (S k). auto.
  - rewrite Nat.add_1_r in Hw. eapply IH; eassumption.
Qed.

(** The initial [breaks]: flag 0 for every competitor. *)
Lemma init_breaks_fold (l : list (string * (nat -> Q))) (m : gmap string nat)
    (c : string) :
  fold_left (fun b x => <[fst x := 0%nat]> b) l m !! c
  = if in_dec string_dec c (names l) then Some 0%nat else m !! c.
Proof.
  revert m. induction l as [|[c0 f0] l IH]; intros m; simpl; [reflexivity|].
  rewrite IH.
  destruct (in_dec string_dec c (names l)) as [Hin|Hnin];
    destruct (string_dec c0 c) as [->|Hne]; try reflexivity.
  - apply lookup_insert_eq.
  - rewrite lookup_insert_ne by congruence.
    destruct (in_dec string_dec c (names l)); [contradiction|reflexivity].
Qed.

Lemma init_breaks_lookup (c : string) :
  init_breaks cs !! c
  = if in_dec string_dec c (names cs) then Some 0%nat else None.
Proof. unfold init_breaks. rewrite init_breaks_fold. reflexivity. Qed.

Lemma loop_inv_init :
  loop_inv D cs 0 (mkState ∅ (init_breaks cs) []).
Proof.
  split; [|split; [|split]].
  - intros c f Hin. right. simpl. rewrite init_breaks_lookup.
    destruct (in_dec string_dec c (names cs)) as [_|Hn].
    + split; [reflexivity|apply lookup_empty].
    + exfalso. apply Hn. eapply In_names; eauto.
  - intros e [].
  - intros c. simpl. rewrite init_breaks_lookup.
    destruct (in_dec string_dec c (names cs)); discriminate.
  - intros c b. simpl. rewrite init_breaks_lookup.
    destruct (in_dec string_dec c (names cs)); [|discriminate].
    intros [= <-]. auto.
Qed.

(** What holds of the events when [simulate] returns on a fresh object. *)
Lemma simulate_fresh (fuel : nat) (st : loop_state) :
  NoDup (names cs) ->
  simulate (Competition_init cs D) fuel = Ok st ->
  events_ok D cs st
  /\ forall c, In c (names cs) ->
       exists e, In e (events st) /\ is_terminal_event D c e.
Proof.
  intros Hnd Hs. unfold simulate in Hs. simpl in Hs.
  destruct (while_loop_inv fuel Hnd 0 _ st loop_inv_init Hs)
    as (k & (Hr & He & Ht & Hb) & Hbr).
  split; [exact He|]. intros c Hc. apply Ht.
  apply in_map_iff in Hc. destruct Hc as ([c' f] & <- & Hin). simpl.
  destruct (Hr c' f Hin) as [H1|[H0 _]]; [exact H1|].
  assert (Hone : 0%nat = 1%nat); [|discriminate].
  eapply is_break_all_finished; [|exact Hbr|exact H0].
  intros c0 v Hv. destruct (Hb c0 v Hv) as [[->| ->] _]; lia.
Qed.

End LoopInvariant.

(* ================================================================== *)
(** ** The loop only appends to [self.event_list] *)

Section Frame.

Variable D : Q.

Lemma visit_frame (L : list Event) (cnt : nat) (c : string) (f : nat -> Q)
    (st : loop_state) :
  visit D cnt c f (prepend L st) = prepend_result L (visit D cnt c f st).
Proof.
  unfold visit, prepend, prepend_result. simpl.
  destruct (breaks st !! c) as [b|]; [|reflexivity].
  destruct (Nat.eqb b 0); [|reflexivity].
  destruct (Qltb _ 0).
  - destruct (Qeq_bool _ 0); [reflexivity|].
    simpl. rewrite <- !app_assoc. reflexivity.
  - simpl. rewrite <- !app_assoc. reflexivity.
Qed.

Lemma for_each_frame (L : list Event) (cnt : nat)
    (l : list (string * (nat -> Q))) (st : loop_state) :
  for_each D cnt l (prepend L st) = prepend_result L (for_each D cnt l st).
Proof.
  revert st. induction l as [|[c f] l IH]; intros st; simpl; [reflexivity|].
  rewrite visit_frame.
  destruct (visit D cnt c f st) as [st1| |]; simpl; [apply IH| |]; reflexivity.
Qed.

Lemma while_loop_frame (L : list Event) (fuel : nat)
    (l : list (string * (nat -> Q))) (cnt : nat) (st : loop_state) :
  while_loop fuel D l cnt (prepend L st) = prepend_result L (while_loop fuel D l cnt st).
Proof.
  revert cnt st. induction fuel as [|fuel IH]; intros cnt st; simpl;
    [reflexivity|].
  rewrite for_each_frame.
  destruct (for_each D cnt l st) as [st1| |]; simpl; try reflexivity.
  destruct (is_break (breaks st1)); [reflexivity|apply IH].
Qed.

End Frame.

(** A simulation on an object that already holds events returns these
    events followed by the events of the simulation on a fresh object. *)
Lemma simulate_appends (self : Competition) (fuel : nat) (st : loop_state) :
  simulate (Competition_init (competitors self) (duration self)) fuel = Ok st ->
  simulate self fuel
  = Ok (mkState (durations st) (breaks st) (event_list self ++ events st)).
Proof.
  unfold simulate. simpl. intros H.
  pose proof (while_loop_frame (duration self) (event_list self) fuel
                (competitors self) 0
                (mkState ∅ (init_breaks (competitors self)) [])) as Hf.
  unfold prepend in Hf at 1. simpl in Hf. rewrite app_nil_r in Hf.
  rewrite Hf, H. reflexivity.
Qed.

Lemma simulate_split (self : Competition) (fuel : nat) (st' : loop_state) :
  simulate self fuel = Ok st' ->
  exists st,
    simulate (Competition_init (competitors self) (duration self)) fuel = Ok st
    /\ st' = prepend (event_list self) st.
Proof.
  unfold simulate. simpl.
  pose proof (while_loop_frame (duration self) (event_list self) fuel
                (competitors self) 0
                (mkState ∅ (init_breaks (competitors self)) [])) as Hf.
  unfold prepend in Hf at 1. simpl in Hf. rewrite app_nil_r in Hf.
  rewrite Hf. clear Hf.
  destruct (while_loop fuel (duration self) (competitors self) 0
              (mkState ∅ (init_breaks (competitors self)) []))
    as [st| |]; simpl; try discriminate.
  intros [= Heq]. exists st. split; [reflexivity|]. symmetry. exact Heq.
Qed.

(** What a call of [run] that returns does to the object. *)
Lemma run_Ok (self : Competition) (fuel : nat) (rs : list Event)
    (self' : Competition) :
  run self fuel = Ok (rs, self') ->
  exists st,
    simulate (Competition_init (competitors self) (duration self)) fuel = Ok st
    /\ self' = mkCompetition (competitors self) (duration self)
                 (list_sort (event_list self ++ events st))
    /\ rs = map rounded (event_list self').
Proof.
  unfold run. destruct (simulate self fuel) as [st'| |] eqn:Hsim;
    simpl; try discriminate.
  intros [= <- <-]. destruct (simulate_split self fuel st' Hsim) as (st & Hst & ->).
  exists st. split; [exact Hst|]. split; reflexivity.
Qed.

Lemma after_runs_events (cs : list (string * (nat -> Q))) (D : Q)
    (self : Competition) :
  NoDup (names cs) ->
  after_runs cs D self ->
  competitors self = cs /\ duration self = D
  /\ forall e, In e (event_list self) ->
       event_ok D cs e /\ In (name e) (names cs).
Proof.
  intros Hnd. induction 1 as [|self fuel rs self' Hprev IH Hrun].
  - split; [reflexivity|]. split; [reflexivity|]. intros e [].
  - destruct IH as (Hcs & HD & Hev).
    destruct (run_Ok self fuel rs self' Hrun) as (st & Hsim & -> & _).
    rewrite Hcs, HD in *. simpl.
    split; [reflexivity|]. split; [reflexivity|].
    intros e He. apply (proj1 (list_sort_In _ _)) in He.
    apply in_app_iff in He. destruct He as [He|He]; [apply Hev, He|].
    destruct (simulate_fresh D cs fuel st Hnd Hsim) as [Hok _]. apply Hok, He.
Qed.

(* ================================================================== *)
(** ** A duration that is over before the competition starts *)

Section NoTimeAtAll.

Variable D : Q.
Hypothesis D_nonpos : D <= 0.



End NoTimeAtAll.

(* ================================================================== *)
(** ** The rounding transform of events *)




(* ================================================================== *)
(** ** No competitors, no events *)

(** C6.  With no competitors [run] returns at the first test of the loop
    with an empty list and leaves the event list empty, whatever the
    duration; and [winner] on an empty event list, after such a run or
    before any run, raises the error of [max] on an empty sequence. *)
Theorem empty_competition_no_winner (D : Q) (fuel : nat)
    (cs : list (string * (nat -> Q))) :
  run (Competition_init [] D) (S fuel) = Ok ([], Competition_init [] D)
  /\ winner (Competition_init [] D) = Raise ValueError
  /\ winner (Competition_init cs D) = Raise ValueError.
Proof. split; [|split]; reflexivity. Qed.

(* ================================================================== *)
(** ** A first hot dog that takes longer than the competition *)

(** C2.  For the single competitor with [f(n) = 10] and duration 5, [run]
    returns two events, not one: the terminal event [(5.0, 0.5)] and the
    whole-item event of the first hot dog at time 10, after the end of the
    competition. *)
Theorem first_item_event_past_the_end (fuel : nat) :
  run scenario_B (S fuel)
  = Ok ([mkEvent (5000 # 1000) "A" (500 # 1000);
         mkEvent (10000 # 1000) "A" (1000 # 1000)],
        mkCompetition (competitors scenario_B) 5
          [mkEvent 5 "A" (50 # 100); mkEvent 10 "A" 1]).
Proof. reflexivity. Qed.

(** C5.  For the same competitor the events are appended in the order
    whole-item event [(10, 1)], terminal event [(5, 0.5)]: both the elapsed
    time and the count decrease from the first to the second. *)
Theorem first_item_breaks_monotonicity (fuel : nat) :
  exists st e1 e2,
    simulate scenario_B (S fuel) = Ok st
    /\ events st = [e1; e2]
    /\ e1 = mkEvent 10 "A" 1
    /\ e2 = mkEvent 5 "A" (50 # 100)
    /\ elapsed_time e2 < elapsed_time e1
    /\ total_hot_dogs_eaten e2 < total_hot_dogs_eaten e1.
Proof.
  eexists. exists (mkEvent 10 "A" 1), (mkEvent 5 "A" (50 # 100)).
  split; [reflexivity|]. split; [reflexivity|].
  split; [reflexivity|]. split; [reflexivity|].
  split; reflexivity.
Qed.

(* ================================================================== *)
(** ** The order of the returned list *)

(** C4, as stated, fails: the list is sorted before it is rounded.  Bob
    finishes his first hot dog at 1.0001 and Alice at 1.0004; both times
    round to 1.000, and Bob stays in front of Alice. *)
Lemma rounded_list_not_sorted_by_key :
  exists rs self',
    run photo_finish 5 = Ok (rs, self')
    /\ rs = [mkEvent (1000 # 1000) "Bob" (1000 # 1000);
             mkEvent (1000 # 1000) "Alice" (1000 # 1000);
             mkEvent (1500 # 1000) "Alice" (1500 # 1000);
             mkEvent (1500 # 1000) "Bob" (1500 # 1000)]
    /\ ~ Sorted key_le rs.
Proof.
  exists [mkEvent (1000 # 1000) "Bob" (1000 # 1000);
          mkEvent (1000 # 1000) "Alice" (1000 # 1000);
          mkEvent (1500 # 1000) "Alice" (1500 # 1000);
          mkEvent (1500 # 1000) "Bob" (1500 # 1000)].
  eexists. split; [reflexivity|]. split; [reflexivity|].
  intros Hs. inversion Hs as [|a l _ Hhd]; subst.
  inversion Hhd as [|b l' Hle]; subst.
  destruct Hle as [Hlt|[_ Hname]].
  - revert Hlt. unfold Qlt. simpl. lia.
  - discriminate Hname.
Qed.

(** C4, amended.  When [run] returns, the internal unrounded list is
    ascending in [(elapsed_time, name)], the returned list is its image
    under the 3-decimal rounding, in the same order, and the rounded
    elapsed times of the returned list are ascending. *)
Theorem run_sorted_then_rounded (self : Competition) (fuel : nat)
    (rs : list Event) (self' : Competition) :
  run self fuel = Ok (rs, self') ->
  Sorted key_le (event_list self')
  /\ rs = map rounded (event_list self')
  /\ Sorted time_le rs.
Proof.
  unfold run. destruct (simulate self fuel) as [st| |]; simpl; try discriminate.
  intros [= <- <-]. simpl.
  split; [apply list_sort_Sorted|]. split; [reflexivity|].
  apply map_rounded_Sorted, list_sort_Sorted.
Qed.

Lemma run_sorted_then_rounded_witness :
  exists rs self',
    run photo_finish 5 = Ok (rs, self')
    /\ Sorted key_le (event_list self')
    /\ rs = map rounded (event_list self')
    /\ Sorted time_le rs.
Proof.
  eexists. eexists. split; [reflexivity|].
  apply (run_sorted_then_rounded photo_finish 5). reflexivity.
Defined.

(* ================================================================== *)
(** ** Zero or negative duration *)



(* ================================================================== *)
(** ** Running twice *)

(** C9.  [run] never clears [self.event_list]: a second call on the same
    object appends the events of a complete second simulation to the sorted
    list kept from the first call and sorts again, so that the internal
    list, over which [winner] then takes its maximum, and the returned list
    hold every event of the first call twice. *)
Theorem run_twice_duplicates (cs : list (string * (nat -> Q))) (D : Q)
    (fuel : nat) (rs1 : list Event) (self1 : Competition) :
  run (Competition_init cs D) fuel = Ok (rs1, self1) ->
  exists st rs2 self2,
    simulate (Competition_init cs D) fuel = Ok st
    /\ event_list self1 = list_sort (events st)
    /\ run self1 fuel = Ok (rs2, self2)
    /\ event_list self2 = list_sort (event_list self1 ++ events st)
    /\ Permutation (event_list self2) (event_list self1 ++ event_list self1)
    /\ Permutation rs2 (rs1 ++ rs1)
    /\ length rs2 = (2 * length rs1)%nat.
Proof.
  intros Hrun. unfold run in Hrun.
  destruct (simulate (Competition_init cs D) fuel) as [st| |] eqn:Hsim;
    simpl in Hrun; try discriminate.
  injection Hrun as <- <-.
  set (self1 := mkCompetition cs D (list_sort (events st))).
  pose proof (simulate_appends self1 fuel st Hsim) as Hsim2. simpl in Hsim2.
  assert (Hperm : Permutation (list_sort (list_sort (events st) ++ events st))
                    (list_sort (events st) ++ list_sort (events st))).
  { rewrite list_sort_perm. apply Permutation_app_head.
    symmetry. apply list_sort_perm. }
  assert (Hperm2 : Permutation
            (map rounded (list_sort (list_sort (events st) ++ events st)))
            (map rounded (list_sort (events st))
             ++ map rounded (list_sort (events st)))).
  { rewrite <- map_app. apply Permutation_map. exact Hperm. }
  exists st. eexists. eexists.
  split; [reflexivity|]. split; [reflexivity|].
  split; [unfold run; rewrite Hsim2; reflexivity|]. simpl.
  split; [reflexivity|]. split; [exact Hperm|]. split; [exact Hperm2|].
  rewrite (Permutation_length Hperm2), length_app. lia.
Qed.

Lemma run_twice_duplicates_witness :
  exists rs1 self1,
    run (Competition_init (competitors scenario_A) 5) 10 = Ok (rs1, self1)
    /\ exists rs2 self2,
         run self1 10 = Ok (rs2, self2)
         /\ Permutation (event_list self2)
              (event_list self1 ++ event_list self1)
         /\ Permutation rs2 (rs1 ++ rs1)
         /\ length rs2 = (2 * length rs1)%nat.
Proof.
  assert (Hrun : exists rs self',
            run (Competition_init (competitors scenario_A) 5) 10
            = Ok (rs, self'))
    by (eexists; eexists; vm_compute; reflexivity).
  destruct Hrun as (rs1 & self1 & Hrun). exists rs1, self1.
  split; [exact Hrun|].
  destruct (run_twice_duplicates _ 5 10 rs1 self1 Hrun)
    as (st & rs2 & self2 & _ & _ & Hrun2 & _ & Hp1 & Hp2 & Hlen).
  exists rs2, self2. auto.
Defined.

(* ================================================================== *)
(** ** More on [Event.__eq__] and [Event.__lt__] *)

Lemma Event_eq_iff (a b : Event) :
  Event_eq a b = true
  <-> elapsed_time a == elapsed_time b /\ name a = name b
      /\ total_hot_dogs_eaten a == total_hot_dogs_eaten b.
Proof.
  unfold Event_eq. rewrite !andb_true_iff, !Qeq_bool_iff, String.eqb_eq.
  tauto.
Qed.

Lemma Event_lt_true_iff (a b : Event) :
  Event_lt a b = true <-> ~ key_le b a.
Proof.
  rewrite <- Event_lt_false_iff. destruct (Event_lt a b); split; congruence.
Qed.

Lemma key_le_antisym (a b : Event) :
  key_le a b -> key_le b a <->
  (key_le a b /\ elapsed_time a == elapsed_time b /\ name a = name b).
Proof.
  intros Hab. split.
  - intros Hba. split; [exact Hab|].
    destruct Hab as [H1|[H1 N1]], Hba as [H2|[H2 N2]]; try lra.
    split; [exact H1|]. apply string_leb_antisym; assumption.
  - intros (_ & Ht & Hn). right. split; [lra|]. rewrite Hn.
    apply string_leb_refl.
Qed.

(** X1.  [Event.__eq__] is an equivalence relation, and it holds exactly
    when the three fields are equal. *)
Theorem Event_eq_equivalence :
  (forall a, Event_eq a a = true)
  /\ (forall a b, Event_eq a b = Event_eq b a)
  /\ (forall a b c, Event_eq a b = true -> Event_eq b c = true ->
                    Event_eq a c = true)
  /\ (forall a b, Event_eq a b = true
                  <-> elapsed_time a == elapsed_time b /\ name a = name b
                      /\ total_hot_dogs_eaten a == total_hot_dogs_eaten b).
Proof.
  split; [|split; [|split]].
  - intros a. apply Event_eq_iff. repeat split; reflexivity.
  - intros a b. unfold Event_eq.
    rewrite (Qeq_bool_comm (elapsed_time a)), (String.eqb_sym (name a)),
      (Qeq_bool_comm (total_hot_dogs_eaten a)). reflexivity.
  - intros a b c. rewrite !Event_eq_iff.
    intros (H1 & H2 & H3) (H4 & H5 & H6).
    split; [lra|]. split; [congruence|lra].
  - apply Event_eq_iff.
Qed.

(** X2.  [Event.__lt__] is a strict weak order: it is irreflexive and
    transitive, two events are unordered exactly when they have the same
    elapsed time and the same name, and of two events with different
    [(elapsed_time, name)] one is less than the other. *)
Theorem Event_lt_strict_weak_order :
  (forall a, Event_lt a a = false)
  /\ (forall a b, Event_lt a b = true -> Event_lt b a = false)
  /\ (forall a b c, Event_lt a b = true -> Event_lt b c = true ->
                    Event_lt a c = true)
  /\ (forall a b, Event_lt a b = false /\ Event_lt b a = false
                  <-> elapsed_time a == elapsed_time b /\ name a = name b).
Proof.
  split; [|split; [|split]].
  - intros a. apply Event_lt_false_iff, key_le_refl.
  - intros a b H. apply Event_lt_false_iff, Event_lt_true_key_le, H.
  - intros a b c Hab Hbc. apply Event_lt_true_iff. intros Hca.
    apply Event_lt_true_iff in Hbc. apply Hbc.
    eapply key_le_trans; [exact Hca|]. apply Event_lt_true_key_le, Hab.
  - intros a b. rewrite !Event_lt_false_iff. split.
    + intros [Hba Hab]. apply (key_le_antisym a b Hab) in Hba. tauto.
    + intros [Ht Hn]. split; right; (split; [lra|]); rewrite Hn;
        apply string_leb_refl.
Qed.

(** X3.  The order does not look at [total_hot_dogs_eaten]: events that
    are equal under [__eq__] are unordered and compare alike with every
    other event, and so do events that differ in the count only. *)
Theorem Event_lt_ignores_count (a a' b : Event) :
  elapsed_time a == elapsed_time a' ->
  name a = name a' ->
  Event_lt a a' = false
  /\ Event_lt a' a = false
  /\ Event_lt a b = Event_lt a' b
  /\ Event_lt b a = Event_lt b a'.
Proof.
  intros Ht Hn. unfold Event_lt. rewrite Hn.
  assert (Hq : forall x, Qeq_bool (elapsed_time a) x = Qeq_bool (elapsed_time a') x)
    by (intros x; apply Qeqb_comp; [exact Ht|reflexivity]).
  assert (Hq' : forall x, Qeq_bool x (elapsed_time a) = Qeq_bool x (elapsed_time a'))
    by (intros x; apply Qeqb_comp; [reflexivity|exact Ht]).
  assert (Hl : forall x, Qltb (elapsed_time a) x = Qltb (elapsed_time a') x).
  { intros x. unfold Qltb. f_equal. apply Qleb_comp; [reflexivity|exact Ht]. }
  assert (Hl' : forall x, Qltb x (elapsed_time a) = Qltb x (elapsed_time a')).
  { intros x. unfold Qltb. f_equal. apply Qleb_comp; [exact Ht|reflexivity]. }
  rewrite !Hq, !Hq', !Hl, !Hl', !Qeq_bool_refl.
  assert (Hs : String.ltb (name a') (name a') = false)
    by (apply string_ltb_false_iff, string_leb_refl).
  rewrite Hs. repeat split; reflexivity.
Qed.

Lemma Event_lt_ignores_count_witness :
  let a := mkEvent 5 "A" 5 in
  let a' := mkEvent (10 # 2) "A" (1 # 2) in
  let b := mkEvent 4 "B" 2 in
  elapsed_time a == elapsed_time a'
  /\ name a = name a'
  /\ Event_eq a a' = false
  /\ Event_lt a a' = false
  /\ Event_lt a' a = false
  /\ Event_lt a b = Event_lt a' b
  /\ Event_lt b a = Event_lt b a'.
Proof.
  intros a a' b.
  assert (H1 : elapsed_time a == elapsed_time a') by reflexivity.
  assert (H2 : name a = name a') by reflexivity.
  split; [exact H1|]. split; [exact H2|]. split; [reflexivity|].
  exact (Event_lt_ignores_count a a' b H1 H2).
Defined.



(* ================================================================== *)
(** ** Lifting a property of one competitor through the loop *)

Section PerCompetitor.

Variable D : Q.
Variable cs : list (string * (nat -> Q)).
Variable P : nat -> string -> (nat -> Q) -> loop_state -> Prop.

Hypothesis P_visit : forall k c f st st',
  In (c, f) cs -> P k c f st -> visit D k c f st = Ok st' -> P (S k) c f st'.

Hypothesis P_other : forall j k c f c' f' st st',
  c' <> c -> P j c f st -> visit D k c' f' st = Ok st' -> P j c f st'.

Lemma for_each_lift (k : nat) (l : list (string * (nat -> Q))) :
  NoDup (names l) -> incl l cs ->
  forall st st',
  for_each D k l st = Ok st' ->
  (forall c f, In (c, f) l -> P k c f st) ->
  (forall c f, In (c, f) l -> P (S k) c f st')
  /\ (forall j c f, ~ In c (names l) -> P j c f st -> P j c f st').
Proof.
  induction l as [|[c f] l IH]; intros Hnd Hincl st st' Hfor HP.
  - injection Hfor as <-. split; [intros c f []|auto].
  - simpl in Hfor. destruct (visit D k c f st) as [st1| |] eqn:Hv;
      try discriminate. simpl in Hfor.
    simpl in Hnd. apply NoDup_cons in Hnd. destruct Hnd as [Hc Hnd].
    rewrite list_elem_of_In in Hc.
    assert (Hin : In (c, f) cs) by (apply Hincl; left; reflexivity).
    assert (HP1 : forall c' f', In (c', f') l -> P k c' f' st1).
    { intros c' f' Hin'. eapply P_other; [|apply HP; right; exact Hin'|exact Hv].
      intros ->. apply Hc. eapply In_names; eauto. }
    destruct (IH Hnd (fun x Hx => Hincl x (or_intror Hx)) st1 st' Hfor HP1)
      as [Hnext Hframe].
    split.
    + intros c' f' [[= <- <-]|Hin'].
      * apply Hframe; [exact Hc|].
        eapply P_visit; [exact Hin|apply HP; left; reflexivity|exact Hv].
      * apply Hnext, Hin'.
    + intros j c0 f0 Hc0 HP0. simpl in Hc0. apply Hframe.
      * intros H. apply Hc0. right. exact H.
      * eapply P_other; [|exact HP0|exact Hv].
        intros ->. apply Hc0. left. reflexivity.
Qed.

Lemma while_loop_lift (fuel : nat) :
  NoDup (names cs) ->
  forall k st st',
  (forall c f, In (c, f) cs -> P k c f st) ->
  while_loop fuel D cs k st = Ok st' ->
  exists k', forall c f, In (c, f) cs -> P k' c f st'.
Proof.
  intros Hnd. induction fuel as [|fuel IH]; intros k st st' HP Hw;
    [discriminate|].
  simpl in Hw. destruct (for_each D k cs st) as [st1| |] eqn:Hfor;
    try discriminate. simpl in Hw.
  destruct (for_each_lift k cs Hnd (incl_refl cs) st st1 Hfor HP) as [HP1 _].
  destruct (is_break (breaks st1)).
  - injection Hw as <-. exists (S k). exact HP1.
  - rewrite Nat.add_1_r in Hw. eapply IH; eassumption.
Qed.

End PerCompetitor.

(* ================================================================== *)
(** ** The events of one competitor *)

Section Trace.

Variable D : Q.

Lemma own_events_app (c : string) (l1 l2 : list Event) :
  own_events c (l1 ++ l2) = own_events c l1 ++ own_events c l2.
Proof. apply List.filter_app. Qed.

Lemma own_events_all (c : string) (l : list Event) :
  (forall e, In e l -> name e = c) -> own_events c l = l.
Proof.
  induction l as [|e l IH]; intros H; simpl; [reflexivity|].
  rewrite (H e (or_introl eq_refl)), String.eqb_refl.
  f_equal. apply IH. intros e' He'. apply H. right. exact He'.
Qed.

Lemma own_events_none (c c' : string) (l : list Event) :
  c' <> c -> (forall e, In e l -> name e = c') -> own_events c l = [].
Proof.
  intros Hne. induction l as [|e l IH]; intros H; simpl; [reflexivity|].
  rewrite (H e (or_introl eq_refl)).
  destruct (String.eqb_spec c' c) as [Heq|_]; [contradiction|].
  apply IH. intros e' He'. apply H. right. exact He'.
Qed.

Lemma whole_events_S (f : nat -> Q) (c : string) (k : nat) :
  whole_events f c (S k)
  = whole_events f c k ++ [whole_item_event (elapsed_sum f k) c k].
Proof. unfold whole_events. rewrite seq_S, map_app. reflexivity. Qed.

Lemma trace_inv_visit (k : nat) (c : string) (f : nat -> Q)
    (st st' : loop_state) :
  trace_inv D k c f st -> visit D k c f st = Ok st' ->
  trace_inv D (S k) c f st'.
Proof.
  intros Hinv Hv. apply visit_Ok in Hv.
  destruct Hv as [(b & Hb & Hb0 & ->)|(Hb & Hv)].
  - destruct Hinv as [(Hb' & _)|(Hb' & m & Hm & Hrest)]; [congruence|].
    right. split; [exact Hb'|]. exists m. split; [lia|exact Hrest].
  - destruct Hinv as [(_ & Hown & Hd & Hno)|(Hb' & _)]; [|congruence].
    assert (Hel : elapsed_after k c f st = elapsed_sum f k).
    { unfold elapsed_after. rewrite Hd. destruct k; reflexivity. }
    cbv zeta in Hv. rewrite Hel in Hv.
    destruct Hv as [(Hc & _ & ->)|(Hc & ->)]; simpl.
    + right. simpl. split; [apply lookup_insert_eq|].
      exists k. split; [lia|]. split; [split; [exact Hc|exact Hno]|].
      rewrite own_events_app, Hown.
      rewrite (own_events_all c [_; _])
        by (intros e [<-|[<-|[]]]; reflexivity).
      unfold competitor_trace. rewrite whole_events_S, <- app_assoc.
      reflexivity.
    + left. simpl. split; [exact Hb|]. split; [|split].
      * rewrite own_events_app, Hown.
        rewrite (own_events_all c [_]) by (intros e [<-|[]]; reflexivity).
        symmetry. apply whole_events_S.
      * apply lookup_insert_eq.
      * intros i Hi Hcr. destruct (Nat.eq_dec i k) as [->|Hne].
        -- unfold crosses in Hcr. lra.
        -- apply (Hno i); [lia|exact Hcr].
Qed.

Lemma trace_inv_other (j k : nat) (c c' : string) (f f' : nat -> Q)
    (st st' : loop_state) :
  c' <> c -> trace_inv D j c f st -> visit D k c' f' st = Ok st' ->
  trace_inv D j c f st'.
Proof.
  intros Hne Hinv Hv.
  destruct (visit_other D k c' c f' st st' Hv) as [Hd Hb]; [congruence|].
  destruct (visit_events D k c' f' st st' Hv) as (new & Hev & Hnames).
  assert (Hown : own_events c (events st') = own_events c (events st)).
  { rewrite Hev, own_events_app, (own_events_none c c' new Hne Hnames).
    apply app_nil_r. }
  unfold trace_inv. rewrite Hd, Hb, Hown. exact Hinv.
Qed.

Lemma trace_inv_init (cs : list (string * (nat -> Q))) (c : string)
    (f : nat -> Q) :
  In (c, f) cs -> trace_inv D 0 c f (mkState ∅ (init_breaks cs) []).
Proof.
  intros Hin. left. simpl. rewrite init_breaks_lookup.
  destruct (in_dec string_dec c (names cs)) as [_|Hn];
    [|exfalso; apply Hn; eapply In_names; eauto].
  split; [reflexivity|]. split; [reflexivity|].
  split; [apply lookup_empty|]. intros i Hi. lia.
Qed.

(** When the simulation on a fresh object returns, the events of every
    competitor are, in the order in which they were appended, the
    whole-item events of the indices [0 .. m] followed by one terminal
    event, where [m] is the first index at which line 73 succeeds. *)
Lemma simulate_trace (cs : list (string * (nat -> Q))) (fuel : nat)
    (st : loop_state) :
  NoDup (names cs) ->
  simulate (Competition_init cs D) fuel = Ok st ->
  forall c f, In (c, f) cs ->
    exists m, stops_at f D m
              /\ own_events c (events st) = competitor_trace f D c m.
Proof.
  intros Hnd Hsim c f Hin. unfold simulate in Hsim. simpl in Hsim.
  destruct (while_loop_lift D cs (trace_inv D)
              (fun k c f st st' _ => trace_inv_visit k c f st st')
              (fun j k c f c' f' st st' => trace_inv_other j k c c' f f' st st')
              fuel Hnd 0 _ st
              (trace_inv_init cs) Hsim) as (k & Htrace).
  destruct (while_loop_inv D cs fuel Hnd 0 _ st (loop_inv_init D cs) Hsim)
    as (k' & (_ & _ & _ & Hb) & Hbr).
  destruct (Htrace c f Hin) as [(H0 & _)|(_ & m & _ & Hstop & Hown)].
  - assert (Hone : 0%nat = 1%nat); [|discriminate].
    eapply is_break_all_finished; [|exact Hbr|exact H0].
    intros c0 v Hv. destruct (Hb c0 v Hv) as [[->| ->] _]; lia.
  - exists m. split; assumption.
Qed.

End Trace.

(* ================================================================== *)
(** ** What [run] leaves alone, and [winner] after it *)

(** X11.  A call of [run] that returns changes neither the competitors nor
    the duration of the object and removes no event: every event that the
    object held before is still in its list, which is sorted and has as
    many elements as the returned list. *)
Theorem run_keeps_events (self : Competition) (fuel : nat)
    (rs : list Event) (self' : Competition) :
  run self fuel = Ok (rs, self') ->
  competitors self' = competitors self
  /\ duration self' = duration self
  /\ (forall e, In e (event_list self) -> In e (event_list self'))
  /\ (length (event_list self) <= length (event_list self'))%nat
  /\ length rs = length (event_list self')
  /\ Sorted key_le (event_list self').
Proof.
  intros Hrun. destruct (run_Ok self fuel rs self' Hrun) as (st & _ & -> & ->).
  simpl. split; [reflexivity|]. split; [reflexivity|]. split; [|split; [|split]].
  - intros e He. apply list_sort_In, in_app_iff. left. exact He.
  - rewrite (Permutation_length (list_sort_perm _)), length_app. lia.
  - apply length_map.
  - apply list_sort_Sorted.
Qed.

Lemma run_keeps_events_witness :
  let self := mkCompetition (competitors scenario_B) 5 [mkEvent 1 "Z" 1] in
  exists rs self',
    run self 10 = Ok (rs, self')
    /\ competitors self' = competitors self
    /\ duration self' = duration self
    /\ In (mkEvent 1 "Z" 1) (event_list self')
    /\ length rs = length (event_list self').
Proof.
  intros self.
  assert (Hrun : exists rs self', run self 10 = Ok (rs, self'))
    by (eexists; eexists; vm_compute; reflexivity).
  destruct Hrun as (rs & self' & Hrun). exists rs, self'.
  destruct (run_keeps_events self 10 rs self' Hrun)
    as (Hc & Hd & Hin & _ & Hlen & _).
  split; [exact Hrun|]. split; [exact Hc|]. split; [exact Hd|].
  split; [apply Hin; left; reflexivity|exact Hlen].
Defined.

(** X12.  After any call of [run] that has returned on a competition with
    at least one competitor, [winner] does not fail: it returns the name of
    one of the competitors. *)
Theorem winner_is_a_competitor (cs : list (string * (nat -> Q))) (D : Q)
    (self : Competition) (fuel : nat) (rs : list Event)
    (self' : Competition) :
  NoDup (names cs) ->
  cs <> [] ->
  after_runs cs D self ->
  run self fuel = Ok (rs, self') ->
  exists c, winner self' = Ok c /\ In c (names cs).
Proof.
  intros Hnd Hne Hself Hrun.
  assert (Hafter : after_runs cs D self') by (eapply after_run; eassumption).
  destruct (after_runs_events cs D self' Hnd Hafter) as (_ & _ & Hev).
  destruct (after_runs_events cs D self Hnd Hself) as (Hcs & HD & _).
  destruct (run_Ok self fuel rs self' Hrun) as (st & Hsim & Hself' & _).
  rewrite Hcs, HD in Hsim.
  destruct (simulate_fresh D cs fuel st Hnd Hsim) as [_ Hterm].
  assert (Hnonempty : event_list self' <> []).
  { destruct cs as [|[c0 f0] cs']; [congruence|].
    destruct (Hterm c0 (or_introl eq_refl)) as (t & Hin & _).
    rewrite Hself'. simpl. intros Heq.
    assert (Hin' : In t (list_sort (event_list self ++ events st)))
      by (apply list_sort_In, in_app_iff; right; exact Hin).
    rewrite Heq in Hin'. exact Hin'. }
  destruct (list_max_spec _ Hnonempty) as (m & Hmax & Hin & _).
  exists (name m). unfold winner. rewrite Hmax. simpl.
  split; [reflexivity|]. apply Hev, Hin.
Qed.

Lemma winner_is_a_competitor_witness :
  let cs := competitors alice_and_bob in
  NoDup (names cs)
  /\ cs <> []
  /\ after_runs cs 5 alice_and_bob
  /\ exists rs self' c,
       run alice_and_bob 10 = Ok (rs, self')
       /\ winner self' = Ok c /\ In c (names cs).
Proof.
  intros cs.
  assert (H1 : NoDup (names cs))
    by (apply (bool_decide_unpack _); vm_compute; reflexivity).
  assert (H2 : cs <> []) by discriminate.
  assert (H3 : after_runs cs 5 alice_and_bob) by apply after_init.
  assert (Hrun : exists rs self', run alice_and_bob 10 = Ok (rs, self'))
    by (eexists; eexists; vm_compute; reflexivity).
  destruct Hrun as (rs & self' & Hrun).
  split; [exact H1|]. split; [exact H2|]. split; [exact H3|].
  destruct (winner_is_a_competitor cs 5 alice_and_bob 10 rs self'
              H1 H2 H3 Hrun) as (c & Hw & Hc).
  exists rs, self', c. auto.
Defined.

(** X13.  [winner] depends on the events only, not on their order in the
    list: two objects whose event lists are permutations of each other have
    the same winner, or both have none. *)
Theorem winner_order_independent (s1 s2 : Competition) :
  Permutation (event_list s1) (event_list s2) ->
  winner s1 = winner s2.
Proof.
  intros Hperm. unfold winner.
  destruct (event_list s1) as [|x1 l1] eqn:H1.
  - apply Permutation_nil in Hperm. rewrite Hperm. reflexivity.
  - destruct (event_list s2) as [|x2 l2] eqn:H2.
    + symmetry in Hperm. apply Permutation_nil in Hperm. discriminate.
    + destruct (list_max_spec (x1 :: l1)) as (m1 & Hm1 & Hin1 & Hall1);
        [discriminate|].
      destruct (list_max_spec (x2 :: l2)) as (m2 & Hm2 & Hin2 & Hall2);
        [discriminate|].
      rewrite Hm1, Hm2. simpl. f_equal.
      assert (H12 : key_le m1 m2)
        by (apply Hall2; eapply Permutation_in; eassumption).
      assert (H21 : key_le m2 m1)
        by (apply Hall1; eapply Permutation_in; [symmetry|]; eassumption).
      apply (key_le_antisym m1 m2 H12) in H21. tauto.
Qed.

Lemma winner_order_independent_witness :
  let s1 := mkCompetition [] 5 [mkEvent 5 "A" 5; mkEvent 5 "B" (5 # 2)] in
  let s2 := mkCompetition [] 5 [mkEvent 5 "B" (5 # 2); mkEvent 5 "A" 5] in
  Permutation (event_list s1) (event_list s2)
  /\ winner s1 = winner s2
  /\ winner s1 = Ok "B"%string.
Proof.
  intros s1 s2.
  assert (H : Permutation (event_list s1) (event_list s2)) by apply perm_swap.
  split; [exact H|]. split; [exact (winner_order_independent s1 s2 H)|].
  reflexivity.
Defined.

(* ================================================================== *)
(** ** More on [round_value] *)










(* ================================================================== *)
(** ** The iteration order of the dict does not show *)

Section SortedByCompetitor.

Lemma key_le_same_name (a b : Event) :
  key_le a b -> key_le b a -> name a = name b.
Proof.
  intros Hab Hba. apply (key_le_antisym a b Hab) in Hba. tauto.
Qed.

Lemma Event_lt_key_le_trans (x y z : Event) :
  Event_lt x y = true -> key_le y z -> Event_lt x z = true.
Proof.
  intros Hxy Hyz. apply Event_lt_true_iff. intros Hzx.
  apply Event_lt_true_iff in Hxy. apply Hxy.
  eapply key_le_trans; eassumption.
Qed.

Lemma list_sort_StronglySorted (l : list Event) :
  StronglySorted key_le (list_sort l).
Proof.
  apply Sorted_StronglySorted; [|apply list_sort_Sorted].
  intros a b c. apply key_le_trans.
Qed.

Lemma insert_sorted_front (x : Event) (l : list Event) :
  (forall z, In z l -> Event_lt x z = true) -> insert_sorted x l = x :: l.
Proof.
  destruct l as [|y l]; intros H; simpl; [reflexivity|].
  rewrite (H y (or_introl eq_refl)). reflexivity.
Qed.

Lemma own_events_In (c : string) (e : Event) (l : list Event) :
  In e (own_events c l) <-> In e l /\ name e = c.
Proof.
  unfold own_events. rewrite List.filter_In, String.eqb_eq. reflexivity.
Qed.

Lemma own_insert_sorted (c : string) (x : Event) (l : list Event) :
  StronglySorted key_le l ->
  own_events c (insert_sorted x l)
  = if String.eqb (name x) c then insert_sorted x (own_events c l)
    else own_events c l.
Proof.
  induction 1 as [|y l Hs IH Hall]; simpl.
  - destruct (String.eqb (name x) c); reflexivity.
  - destruct (Event_lt x y) eqn:Hxy; simpl.
    + destruct (String.eqb (name x) c) eqn:Hx; [|reflexivity].
      symmetry. apply insert_sorted_front. intros z Hz.
      change (In z (own_events c (y :: l))) in Hz.
      apply own_events_In in Hz. destruct Hz as [[<-|Hz] _]; [exact Hxy|].
      eapply Event_lt_key_le_trans; [exact Hxy|].
      rewrite List.Forall_forall in Hall. apply Hall, Hz.
    + fold (own_events c (insert_sorted x l)). rewrite IH.
      fold (own_events c l).
      destruct (String.eqb (name y) c), (String.eqb (name x) c);
        simpl; rewrite ?Hxy; reflexivity.
Qed.

Lemma own_fold_insert (c : string) (l acc : list Event) :
  Sorted key_le acc ->
  own_events c (fold_left (fun a x => insert_sorted x a) l acc)
  = fold_left (fun a x => insert_sorted x a) (own_events c l)
      (own_events c acc).
Proof.
  revert acc. induction l as [|x l IH]; intros acc Hs; simpl; [reflexivity|].
  rewrite IH by (apply insert_sorted_Sorted, Hs).
  rewrite own_insert_sorted
    by (apply Sorted_StronglySorted; [intros a b d; apply key_le_trans|exact Hs]).
  destruct (String.eqb (name x) c); reflexivity.
Qed.

(** Sorting and selecting the events of one competitor commute. *)
Lemma own_list_sort (c : string) (l : list Event) :
  own_events c (list_sort l) = list_sort (own_events c l).
Proof. unfold list_sort. apply own_fold_insert. constructor. Qed.

(** A sorted list is determined by the events of each competitor in it. *)
Lemma sorted_by_competitor_unique (l l' : list Event) :
  StronglySorted key_le l -> StronglySorted key_le l' ->
  (forall c, own_events c l = own_events c l') ->
  l = l'.
Proof.
  intros Hs. revert l'. induction Hs as [|h t Hs IH Hall]; intros l' Hs' Hown.
  - destruct l' as [|h' t']; [reflexivity|].
    specialize (Hown (name h')). simpl in Hown.
    rewrite String.eqb_refl in Hown. discriminate.
  - destruct Hs' as [|h' t' Hs' Hall'].
    + specialize (Hown (name h)). simpl in Hown.
      rewrite String.eqb_refl in Hown. discriminate.
    + rewrite List.Forall_forall in Hall, Hall'.
      assert (Hh : In h (h' :: t')).
      { apply (own_events_In (name h) h (h' :: t')). rewrite <- Hown.
        apply own_events_In. split; [left|]; reflexivity. }
      assert (Hh' : In h' (h :: t)).
      { apply (own_events_In (name h') h' (h :: t)). rewrite Hown.
        apply own_events_In. split; [left|]; reflexivity. }
      assert (H1 : key_le h' h)
        by (destruct Hh as [<-|Hh]; [apply key_le_refl|apply Hall', Hh]).
      assert (H2 : key_le h h')
        by (destruct Hh' as [<-|Hh']; [apply key_le_refl|apply Hall, Hh']).
      pose proof (key_le_same_name h h' H2 H1) as Hname.
      assert (Heq : h = h' /\ forall c, own_events c t = own_events c t').
      { pose proof (Hown (name h)) as Hc. simpl in Hc.
        rewrite <- Hname, String.eqb_refl in Hc. injection Hc as Hhd Htl.
        split; [exact Hhd|]. intros c. specialize (Hown c). simpl in Hown.
        rewrite <- Hname in Hown. revert Hown.
        destruct (String.eqb_spec (name h) c) as [Hc|Hne];
          [intros _; rewrite <- Hc; exact Htl|intros Hown; exact Hown]. }
      destruct Heq as [<- Htl]. f_equal. apply IH; assumption.
Qed.

Lemma stops_at_unique (f : nat -> Q) (D : Q) (m m' : nat) :
  stops_at f D m -> stops_at f D m' -> m = m'.
Proof.
  intros [Hc Hf] [Hc' Hf'].
  destruct (Nat.lt_trichotomy m m') as [Hlt|[Heq|Hgt]]; [|exact Heq|].
  - exfalso. exact (Hf' m Hlt Hc).
  - exfalso. exact (Hf m' Hgt Hc').
Qed.

End SortedByCompetitor.

(** X18.  The lists of [run] do not depend on the iteration order of the
    competitor dict, nor on the fuel of the model: two fresh competitions
    with the same competitors in a different order and the same duration,
    on which [run] returns, return the same list and keep the same internal
    list. *)
Theorem run_order_independent (cs cs' : list (string * (nat -> Q)))
    (D : Q) (fuel fuel' : nat) (rs rs' : list Event)
    (self1 self2 : Competition) :
  NoDup (names cs) ->
  Permutation cs cs' ->
  run (Competition_init cs D) fuel = Ok (rs, self1) ->
  run (Competition_init cs' D) fuel' = Ok (rs', self2) ->
  rs = rs' /\ event_list self1 = event_list self2.
Proof.
  intros Hnd Hperm Hrun Hrun'.
  assert (Hnd' : NoDup (names cs')).
  { unfold names in *. rewrite <- (Permutation_map fst Hperm). exact Hnd. }
  destruct (run_Ok _ fuel rs self1 Hrun) as (st & Hsim & -> & ->).
  destruct (run_Ok _ fuel' rs' self2 Hrun') as (st' & Hsim' & -> & ->).
  simpl in *.
  assert (Heq : list_sort (events st) = list_sort (events st')).
  { apply sorted_by_competitor_unique; try apply list_sort_StronglySorted.
    intros c. rewrite !own_list_sort. f_equal.
    destruct (simulate_fresh D cs fuel st Hnd Hsim) as [Hev _].
    destruct (simulate_fresh D cs' fuel' st' Hnd' Hsim') as [Hev' _].
    destruct (in_dec string_dec c (names cs)) as [Hin|Hnin].
    - apply in_map_iff in Hin. destruct Hin as ([c0 f] & Hc0 & Hin).
      simpl in Hc0. subst c0.
      assert (Hin' : In (c, f) cs') by (eapply Permutation_in; eassumption).
      destruct (simulate_trace D cs fuel st Hnd Hsim c f Hin)
        as (m & Hstop & ->).
      destruct (simulate_trace D cs' fuel' st' Hnd' Hsim' c f Hin')
        as (m' & Hstop' & ->).
      rewrite (stops_at_unique f D m m' Hstop Hstop'). reflexivity.
    - assert (Hnin' : ~ In c (names cs')).
      { intros H. apply Hnin. eapply Permutation_in; [|exact H].
        symmetry. apply Permutation_map, Hperm. }
      assert (Hnone : forall l : list Event,
                (forall e, In e l -> name e <> c) -> own_events c l = []).
      { induction l as [|e l IHl]; intros Hl; simpl; [reflexivity|].
        destruct (String.eqb_spec (name e) c) as [Heq|_].
        - exfalso. exact (Hl e (or_introl eq_refl) Heq).
        - apply IHl. intros e' He'. apply Hl. right. exact He'. }
      rewrite !Hnone; [reflexivity| |].
      + intros e He Hn. apply Hnin'. rewrite <- Hn. apply Hev', He.
      + intros e He Hn. apply Hnin. rewrite <- Hn. apply Hev, He. }
  rewrite Heq. split; reflexivity.
Qed.

Lemma run_order_independent_witness :
  let cs := competitors scenario_A in
  let cs' := [("B"%string, constant 2); ("A"%string, constant 1)] in
  NoDup (names cs)
  /\ Permutation cs cs'
  /\ exists rs self1 rs' self2,
       run (Competition_init cs 5) 10 = Ok (rs, self1)
       /\ run (Competition_init cs' 5) 7 = Ok (rs', self2)
       /\ rs = rs' /\ event_list self1 = event_list self2.
Proof.
  intros cs cs'.
  assert (H1 : NoDup (names cs))
    by (apply (bool_decide_unpack _); vm_compute; reflexivity).
  assert (H2 : Permutation cs cs') by apply perm_swap.
  assert (Hrun : exists rs self1,
            run (Competition_init cs 5) 10 = Ok (rs, self1))
    by (eexists; eexists; vm_compute; reflexivity).
  assert (Hrun' : exists rs' self2,
            run (Competition_init cs' 5) 7 = Ok (rs', self2))
    by (eexists; eexists; vm_compute; reflexivity).
  destruct Hrun as (rs & self1 & Hrun).
  destruct Hrun' as (rs' & self2 & Hrun').
  split; [exact H1|]. split; [exact H2|]. exists rs, self1, rs', self2.
  split; [exact Hrun|]. split; [exact Hrun'|].
  exact (run_order_independent cs cs' 5 10 7 rs rs' self1 self2
           H1 H2 Hrun Hrun').
Defined.

(* ================================================================== *)
(** * The code on binary64 numbers: the boundary of the competition *)


Lemma round_value64_cases (value : spec_float) (precision : Decimal) :
  (exists r, round_value64 value precision = Ok r)
  \/ round_value64 value precision = Raise InvalidOperation.
Proof.
  unfold round_value64. destruct value as [s|s| |s m e]; eauto.
  destruct (_ <=? _)%Z; eauto.
Qed.

(** What a visit does, case by case. *)
Lemma visit64_cases (D : spec_float) (cnt : nat) (c : string)
    (rate : nat -> spec_float) (st : loop_state64) (r : result loop_state64) :
  visit64 D cnt c rate st = r ->
  (breaks64 st !! c = None /\ r = Raise KeyError)
  \/ (exists b, breaks64 st !! c = Some (S b) /\ r = Ok st)
  \/ (breaks64 st !! c = Some 0%nat
      /\ let d := elapsed_after64 cnt c rate st in
         let next := rate (cnt + 1)%nat in
         (float64_of_nat (cnt + 1) = Raise OverflowError
          /\ r = Raise OverflowError)
         \/ exists k,
              float64_of_nat (cnt + 1) = Ok k
              /\ ((fltb (fsub (fsub D d) next) fzero = false
                   /\ r = Ok (mkState64 (<[c := d]> (durations64 st))
                                (breaks64 st)
                                (events64 st ++ [mkEvent64 d c k])))
                  \/ (fltb (fsub (fsub D d) next) fzero = true
                      /\ feqb next fzero = true
                      /\ r = Raise ZeroDivisionError)
                  \/ (fltb (fsub (fsub D d) next) fzero = true
                      /\ feqb next fzero = false
                      /\ round_value64 (fadd k (fdiv (fsub D d) next))
                           Decimal_1_00
                         = Raise InvalidOperation
                      /\ r = Raise InvalidOperation)
                  \/ (exists total,
                        fltb (fsub (fsub D d) next) fzero = true
                        /\ feqb next fzero = false
                        /\ round_value64 (fadd k (fdiv (fsub D d) next))
                             Decimal_1_00
                           = Ok total
                        /\ r = Ok (mkState64 (<[c := d]> (durations64 st))
                                     (<[c := 1%nat]> (breaks64 st))
                                     (events64 st
                                      ++ [mkEvent64 d c k;
                                          mkEvent64 D c total]))))).
Proof.
  unfold visit64. fold (elapsed_after64 cnt c rate st).
  destruct (breaks64 st !! c) as [[|b]|] eqn:Hb; cbn [Nat.eqb]; intros <-.
  - right. right. split; [reflexivity|]. cbv zeta.
    assert (Hk : (exists k, float64_of_nat (cnt + 1) = Ok k)
                 \/ float64_of_nat (cnt + 1) = Raise OverflowError).
    { unfold float64_of_nat. destruct (dyadic _ _); eauto. }
    destruct Hk as [[k Hk]|Hk]; rewrite Hk; cbn [bind];
      [right; exists k; split; [reflexivity|]|left; split; reflexivity].
    destruct (fltb _ fzero) eqn:Hlt; [|left; split; reflexivity].
    right. destruct (feqb _ fzero) eqn:Hz;
      [left; split; [reflexivity|split; reflexivity]|].
    right.
    destruct (round_value64_cases
                (fadd k (fdiv (fsub D (elapsed_after64 cnt c rate st))
                              (rate (cnt + 1)%nat))) Decimal_1_00)
      as [[total Hr]|Hr]; rewrite Hr; cbn [bind].
    + right. exists total. rewrite <- app_assoc. auto.
    + left. auto.
  - right. left. exists b. split; reflexivity.
  - left. split; reflexivity.
Qed.



(* ================================================================== *)
(** * The code on binary64 numbers: the events of a run *)

Lemma In_names64 (c : string) (rate : nat -> spec_float)
    (l : list (string * (nat -> spec_float))) :
  In (c, rate) l -> In c (names64 l).
Proof. intros H. apply (in_map fst) in H. exact H. Qed.

Lemma insert_sorted64_perm (x : Event64) (l : list Event64) :
  Permutation (insert_sorted64 x l) (x :: l).
Proof.
  induction l as [|y l IH]; simpl; [reflexivity|].
  destruct (Event_lt64 x y); [reflexivity|].
  rewrite IH. apply perm_swap.
Qed.

Lemma list_sort64_perm (l : list Event64) : Permutation (list_sort64 l) l.
Proof.
  unfold list_sort64.
  assert (H : forall acc, Permutation
                (fold_left (fun acc x => insert_sorted64 x acc) l acc)
                (acc ++ l)).
  { induction l as [|x l IH]; intros acc; simpl.
    - rewrite app_nil_r. reflexivity.
    - rewrite IH, insert_sorted64_perm.
      change (x :: acc) with ([x] ++ acc).
      rewrite (Permutation_app_comm [x] acc), <- app_assoc. reflexivity. }
  apply (H []).
Qed.


(** A visit of another competitor changes neither [durations[c]] nor
    [breaks[c]], and appends events of the visited competitor only. *)
Lemma visit64_other (D : spec_float) (k : nat) (c c' : string)
    (rate' : nat -> spec_float) (st st' : loop_state64) :
  c' <> c ->
  visit64 D k c' rate' st = Ok st' ->
  durations64 st' !! c = durations64 st !! c
  /\ breaks64 st' !! c = breaks64 st !! c
  /\ exists new, events64 st' = events64 st ++ new
                 /\ forall e, In e new -> name64 e = c'.
Proof.
  intros Hne Hv.
  destruct (visit64_cases D k c' rate' st _ Hv)
    as [[_ [=]]|[(b & _ & [= ->])|(_ & H)]].
  - split; [reflexivity|]. split; [reflexivity|].
    exists []. rewrite app_nil_r. split; [reflexivity|intros e []].
  - cbv zeta in H. destruct H as [[_ [=]]|(kf & _ & H)].
    destruct H as [(_ & [= ->])|[(_ & _ & [=])|[(_ & _ & _ & [=])
                                                |(total & _ & _ & _ & [= ->])]]];
      cbn.
    + rewrite lookup_insert_ne by exact Hne.
      split; [reflexivity|]. split; [reflexivity|].
      eexists. split; [reflexivity|]. intros e [<-|[]]. reflexivity.
    + rewrite !lookup_insert_ne by exact Hne.
      split; [reflexivity|]. split; [reflexivity|].
      eexists. split; [reflexivity|]. intros e [<-|[<-|[]]]; reflexivity.
Qed.

Section PerCompetitor64.

Variable D : spec_float.
Variable cs : list (string * (nat -> spec_float)).
Variable P : nat -> string -> (nat -> spec_float) -> loop_state64 -> Prop.

Hypothesis P_visit : forall k c rate st st',
  In (c, rate) cs -> P k c rate st -> visit64 D k c rate st = Ok st' ->
  P (S k) c rate st'.

Hypothesis P_other : forall j k c rate c' rate' st st',
  c' <> c -> P j c rate st -> visit64 D k c' rate' st = Ok st' ->
  P j c rate st'.

Lemma for_each64_lift (k : nat) (l : list (string * (nat -> spec_float))) :
  NoDup (names64 l) -> incl l cs ->
  forall st st',
  for_each64 D k l st = Ok st' ->
  (forall c rate, In (c, rate) l -> P k c rate st) ->
  (forall c rate, In (c, rate) l -> P (S k) c rate st')
  /\ (forall j c rate, ~ In c (names64 l) -> P j c rate st -> P j c rate st').
Proof.
  induction l as [|[c rate] l IH]; intros Hnd Hincl st st' Hfor HP.
  - injection Hfor as <-. split; [intros c rate []|auto].
  - simpl in Hfor. destruct (visit64 D k c rate st) as [st1| |] eqn:Hv;
      try discriminate. simpl in Hfor.
    simpl in Hnd. apply NoDup_cons in Hnd. destruct Hnd as [Hc Hnd].
    rewrite list_elem_of_In in Hc.
    assert (Hin : In (c, rate) cs) by (apply Hincl; left; reflexivity).
    assert (HP1 : forall c' rate', In (c', rate') l -> P k c' rate' st1).
    { intros c' rate' Hin'.
      eapply P_other; [|apply HP; right; exact Hin'|exact Hv].
      intros ->. apply Hc. eapply In_names64; eauto. }
    destruct (IH Hnd (fun x Hx => Hincl x (or_intror Hx)) st1 st' Hfor HP1)
      as [Hnext Hframe].
    split.
    + intros c' rate' [[= <- <-]|Hin'].
      * apply Hframe; [exact Hc|].
        eapply P_visit; [exact Hin|apply HP; left; reflexivity|exact Hv].
      * apply Hnext, Hin'.
    + intros j c0 rate0 Hc0 HP0. simpl in Hc0. apply Hframe.
      * intros H. apply Hc0. right. exact H.
      * eapply P_other; [|exact HP0|exact Hv].
        intros ->. apply Hc0. left. reflexivity.
Qed.

Lemma while_loop64_lift (fuel : nat) :
  NoDup (names64 cs) ->
  forall k st st',
  (forall c rate, In (c, rate) cs -> P k c rate st) ->
  while_loop64 fuel D cs k st = Ok st' ->
  exists k', forall c rate, In (c, rate) cs -> P k' c rate st'.
Proof.
  intros Hnd. induction fuel as [|fuel IH]; intros k st st' HP Hw;
    [discriminate|].
  simpl in Hw. destruct (for_each64 D k cs st) as [st1| |] eqn:Hfor;
    try discriminate. simpl in Hw.
  destruct (for_each64_lift k cs Hnd (incl_refl cs) st st1 Hfor HP)
    as [HP1 _].
  destruct (is_break (breaks64 st1)).
  - injection Hw as <-. exists (S k). exact HP1.
  - rewrite Nat.add_1_r in Hw. eapply IH; eassumption.
Qed.

End PerCompetitor64.

Section Lookahead.

Variable D : spec_float.




End Lookahead.

Lemma run64_Ok (self : Competition64) (fuel : nat) (rs : list Event64)
    (self' : Competition64) :
  run64 self fuel = Ok (rs, self') ->
  exists st,
    simulate64 self fuel = Ok st
    /\ map_rounded64 (list_sort64 (events64 st)) = Ok rs
    /\ self' = mkCompetition64 (competitors64 self) (duration64 self)
                 (list_sort64 (events64 st)).
Proof.
  unfold run64. destruct (simulate64 self fuel) as [st| |]; try discriminate.
  cbn [bind].
  destruct (map_rounded64 (list_sort64 (events64 st))) as [l| |] eqn:Hmap;
    try discriminate.
  cbn [bind]. intros [= <- <-]. exists st.
  split; [reflexivity|]. split; [exact Hmap|reflexivity].
Qed.

(* ================================================================== *)
(** ** The winner, on doubles *)

(** C1.  The first hot dog of Alice takes 10 seconds in a competition of 5
    seconds (Bob takes 1 second for each of his): [run] returns, the
    maximum of the internal event list is the whole-item event of Alice at
    time 10, which is not an event of the end of the competition (its
    elapsed time is above the duration), and [winner] returns Alice, not
    Bob. *)
Theorem winner64_past_the_end :
  exists rs self',
    run64 alice_and_bob64 10 = Ok (rs, self')
    /\ list_max64 (event_list64 self')
       = Ok (mkEvent64 (dyadic 10 0) "Alice" (dyadic 1 0))
    /\ fltb (duration64 self') (dyadic 10 0) = true
    /\ winner64 self' = Ok "Alice"%string
    /\ winner64 self' <> Ok "Bob"%string.
Proof.
  eexists. eexists. split; [vm_compute; reflexivity|].
  split; [vm_compute; reflexivity|]. split; [vm_compute; reflexivity|].
  split; [vm_compute; reflexivity|]. vm_compute. discriminate.
Qed.

(* ================================================================== *)
(** ** Events past the end of the competition, on doubles *)






(* ================================================================== *)
(** * The code on binary64 numbers: the trace of a competitor *)

Lemma float64_of_nat_Ok (n : nat) (x : spec_float) :
  float64_of_nat (n + 1) = Ok x -> x = count64 n.
Proof.
  unfold float64_of_nat, count64.
  destruct (dyadic (Z.of_nat (n + 1)) 0); congruence.
Qed.

Lemma init_breaks64_fold (l : list (string * (nat -> spec_float)))
    (m : gmap string nat) (c : string) :
  fold_left (fun b x => <[fst x := 0%nat]> b) l m !! c
  = if in_dec string_dec c (names64 l) then Some 0%nat else m !! c.
Proof.
  revert m. induction l as [|[c0 f0] l IH]; intros m; simpl; [reflexivity|].
  rewrite IH.
  destruct (in_dec string_dec c (names64 l)) as [Hin|Hnin];
    destruct (string_dec c0 c) as [->|Hne]; try reflexivity.
  - apply lookup_insert_eq.
  - rewrite lookup_insert_ne by congruence.
    destruct (in_dec string_dec c (names64 l)); [contradiction|reflexivity].
Qed.

Lemma init_breaks64_lookup (cs : list (string * (nat -> spec_float)))
    (c : string) :
  init_breaks64 cs !! c
  = if in_dec string_dec c (names64 cs) then Some 0%nat else None.
Proof. unfold init_breaks64. rewrite init_breaks64_fold. reflexivity. Qed.

Lemma visit64_breaks (D : spec_float) (k : nat) (c : string)
    (rate : nat -> spec_float) (st st' : loop_state64) :
  visit64 D k c rate st = Ok st' ->
  (flags_ok (breaks64 st) -> flags_ok (breaks64 st'))
  /\ forall c', breaks64 st !! c' <> None -> breaks64 st' !! c' <> None.
Proof.
  intros Hv.
  assert (Hcases : breaks64 st' = breaks64 st
                   \/ breaks64 st' = <[c := 1%nat]> (breaks64 st)).
  { destruct (visit64_cases D k c rate st _ Hv)
      as [[_ [=]]|[(b & _ & [= ->])|(_ & H)]]; [left; reflexivity|].
    cbv zeta in H. destruct H as [[_ [=]]|(kf & _ & H)].
    destruct H as [(_ & [= ->])|[(_ & _ & [=])|[(_ & _ & _ & [=])
                                   |(total & _ & _ & _ & [= ->])]]];
      [left|right]; reflexivity. }
  destruct Hcases as [-> | ->]; [split; auto|]. split.
  - intros Hok c' v. destruct (string_dec c c') as [->|Hne].
    + rewrite lookup_insert_eq. intros [= <-]. lia.
    + rewrite lookup_insert_ne by exact Hne. apply Hok.
  - intros c'. destruct (string_dec c c') as [->|Hne].
    + rewrite lookup_insert_eq. discriminate.
    + rewrite lookup_insert_ne by exact Hne. auto.
Qed.

Lemma for_each64_breaks (D : spec_float) (k : nat)
    (l : list (string * (nat -> spec_float))) :
  forall st st',
  for_each64 D k l st = Ok st' ->
  (flags_ok (breaks64 st) -> flags_ok (breaks64 st'))
  /\ forall c', breaks64 st !! c' <> None -> breaks64 st' !! c' <> None.
Proof.
  induction l as [|[c rate] l IH]; intros st st' Hfor.
  - injection Hfor as <-. auto.
  - simpl in Hfor. destruct (visit64 D k c rate st) as [st1| |] eqn:Hv;
      try discriminate. simpl in Hfor.
    destruct (visit64_breaks D k c rate st st1 Hv) as [H1 H2].
    destruct (IH st1 st' Hfor) as [H3 H4]. split; auto.
Qed.

Lemma while_loop64_break (D : spec_float)
    (cs : list (string * (nat -> spec_float))) (fuel : nat) :
  forall k st st',
  while_loop64 fuel D cs k st = Ok st' ->
  is_break (breaks64 st') = true
  /\ (flags_ok (breaks64 st) -> flags_ok (breaks64 st')).
Proof.
  induction fuel as [|fuel IH]; intros k st st' Hw; [discriminate|].
  simpl in Hw. destruct (for_each64 D k cs st) as [st1| |] eqn:Hfor;
    try discriminate. simpl in Hw.
  destruct (for_each64_breaks D k cs st st1 Hfor) as [H1 _].
  destruct (is_break (breaks64 st1)) eqn:Hbr.
  - injection Hw as <-. auto.
  - destruct (IH _ _ _ Hw) as [H2 H3]. auto.
Qed.

Lemma init_breaks64_flags (cs : list (string * (nat -> spec_float))) :
  flags_ok (init_breaks64 cs).
Proof.
  intros c v. rewrite init_breaks64_lookup.
  destruct (in_dec string_dec c (names64 cs)); [|discriminate].
  intros [= <-]. lia.
Qed.

Section Trace64.

Variable D : spec_float.
Variable el : list Event64.

Lemma own_events64_app (c : string) (l1 l2 : list Event64) :
  own_events64 c (l1 ++ l2) = own_events64 c l1 ++ own_events64 c l2.
Proof. apply List.filter_app. Qed.

Lemma own_events64_all (c : string) (l : list Event64) :
  (forall e, In e l -> name64 e = c) -> own_events64 c l = l.
Proof.
  induction l as [|e l IH]; intros H; simpl; [reflexivity|].
  rewrite (H e (or_introl eq_refl)), String.eqb_refl.
  f_equal. apply IH. intros e' He'. apply H. right. exact He'.
Qed.

Lemma own_events64_none (c c' : string) (l : list Event64) :
  c' <> c -> (forall e, In e l -> name64 e = c') -> own_events64 c l = [].
Proof.
  intros Hne. induction l as [|e l IH]; intros H; simpl; [reflexivity|].
  rewrite (H e (or_introl eq_refl)).
  destruct (String.eqb_spec c' c) as [Heq|_]; [contradiction|].
  apply IH. intros e' He'. apply H. right. exact He'.
Qed.

Lemma whole_events64_S (rate : nat -> spec_float) (c : string) (k : nat) :
  whole_events64 rate c (S k)
  = whole_events64 rate c k
    ++ [mkEvent64 (elapsed_sum64 rate k) c (count64 k)].
Proof. unfold whole_events64. rewrite seq_S, map_app. reflexivity. Qed.

Lemma trace_inv64_visit (k : nat) (c : string) (rate : nat -> spec_float)
    (st st' : loop_state64) :
  trace_inv64 D el k c rate st -> visit64 D k c rate st = Ok st' ->
  trace_inv64 D el (S k) c rate st'.
Proof.
  intros Hinv Hv.
  destruct (visit64_cases D k c rate st _ Hv)
    as [[_ [=]]|[(b & Hb & [= ->])|(Hb & H)]].
  - destruct Hinv as [(Hb' & _)|(Hb' & m & total & Hm & Hrest)];
      [congruence|].
    right. split; [exact Hb'|]. exists m, total. split; [lia|exact Hrest].
  - destruct Hinv as [(_ & Hown & Hd & Hno)|(Hb' & _)]; [|congruence].
    assert (Hel : elapsed_after64 k c rate st = elapsed_sum64 rate k).
    { unfold elapsed_after64. rewrite Hd. destruct k; reflexivity. }
    cbv zeta in H. rewrite Hel in H. fold (lookahead64 D rate k) in H.
    destruct H as [[_ [=]]|(kf & Hk & H)].
    apply float64_of_nat_Ok in Hk. subst kf.
    destruct H as [(Hlt & [= ->])|[(_ & _ & [=])|[(_ & _ & _ & [=])
                                   |(total & Hlt & Hz & Hr & [= ->])]]];
      unfold trace_inv64; cbn [events64 durations64 breaks64].
    + left. split; [exact Hb|]. split; [|split].
      * rewrite own_events64_app, Hown, <- app_assoc.
        rewrite (own_events64_all c [_]) by (intros e [<-|[]]; reflexivity).
        rewrite whole_events64_S. reflexivity.
      * apply lookup_insert_eq.
      * intros i Hi. destruct (Nat.eq_dec i k) as [->|Hne]; [exact Hlt|].
        apply Hno. lia.
    + right. split; [apply lookup_insert_eq|].
      exists k, total. split; [lia|]. split; [split; [exact Hlt|exact Hno]|].
      split; [exact Hz|]. split; [exact Hr|].
      rewrite own_events64_app, Hown, <- app_assoc.
      rewrite (own_events64_all c [_; _])
        by (intros e [<-|[<-|[]]]; reflexivity).
      unfold competitor_trace64. rewrite whole_events64_S, <- app_assoc.
      reflexivity.
Qed.

Lemma trace_inv64_other (j k : nat) (c c' : string)
    (rate rate' : nat -> spec_float) (st st' : loop_state64) :
  c' <> c -> trace_inv64 D el j c rate st ->
  visit64 D k c' rate' st = Ok st' ->
  trace_inv64 D el j c rate st'.
Proof.
  intros Hne Hinv Hv.
  destruct (visit64_other D k c c' rate' st st' Hne Hv)
    as (Hd & Hb & new & Hnew & Hnames).
  assert (Hown : own_events64 c (events64 st') = own_events64 c (events64 st)).
  { rewrite Hnew, own_events64_app, (own_events64_none c c' new Hne Hnames).
    apply app_nil_r. }
  unfold trace_inv64. rewrite Hd, Hb, Hown. exact Hinv.
Qed.

Lemma trace_inv64_init (cs : list (string * (nat -> spec_float)))
    (c : string) (rate : nat -> spec_float) :
  In (c, rate) cs ->
  trace_inv64 D el 0 c rate (mkState64 ∅ (init_breaks64 cs) el).
Proof.
  intros Hin. left. cbn [events64 durations64 breaks64].
  rewrite init_breaks64_lookup.
  destruct (in_dec string_dec c (names64 cs)) as [_|Hn];
    [|exfalso; apply Hn; eapply In_names64; eauto].
  split; [reflexivity|]. split; [symmetry; apply app_nil_r|].
  split; [apply lookup_empty|]. intros i Hi. lia.
Qed.

(** When the simulation returns, the events of every competitor are, in
    the order in which they were appended, the whole-item events of the
    indices [0 .. m] followed by one event of the end of the competition,
    where [m] is the first index at which line 73 is true. *)
Lemma simulate64_trace (cs : list (string * (nat -> spec_float)))
    (fuel : nat) (st : loop_state64) :
  NoDup (names64 cs) ->
  simulate64 (mkCompetition64 cs D el) fuel = Ok st ->
  forall c rate, In (c, rate) cs ->
    exists m total,
      stops_at64 D rate m
      /\ feqb (rate (m + 1)%nat) fzero = false
      /\ stored_count64 D rate m = Ok total
      /\ own_events64 c (events64 st)
         = own_events64 c el ++ competitor_trace64 rate D c m total.
Proof.
  intros Hnd Hsim c rate Hin. unfold simulate64 in Hsim.
  cbn [competitors64 duration64 event_list64] in Hsim.
  destruct (while_loop64_lift D cs (trace_inv64 D el)
              (fun k c rate st st' _ => trace_inv64_visit k c rate st st')
              (fun j k c rate c' rate' =>
                 trace_inv64_other j k c c' rate rate')
              fuel Hnd 0 (mkState64 ∅ (init_breaks64 cs) el) st
              (trace_inv64_init cs) Hsim) as (k & Htrace).
  destruct (while_loop64_break D cs fuel 0 _ st Hsim) as [Hbr Hflags].
  destruct (Htrace c rate Hin)
    as [(H0 & _)|(_ & m & total & _ & Hstop & Hz & Hr & Hown)].
  - assert (Hone : 0%nat = 1%nat); [|discriminate].
    eapply is_break_all_finished; [|exact Hbr|exact H0].
    apply Hflags, init_breaks64_flags.
  - exists m, total. auto.
Qed.

End Trace64.

(* ================================================================== *)
(** ** The events of one competitor in the lists of [run], on doubles *)

Lemma own_events64_perm (c : string) (l l' : list Event64) :
  Permutation l l' -> Permutation (own_events64 c l) (own_events64 c l').
Proof.
  unfold own_events64.
  induction 1 as [|x l l' _ IH|x y l|l l' l'' _ IH1 _ IH2]; simpl.
  - constructor.
  - destruct (String.eqb (name64 x) c); [constructor|]; exact IH.
  - destruct (String.eqb (name64 x) c), (String.eqb (name64 y) c);
      try reflexivity. apply perm_swap.
  - etransitivity; eassumption.
Qed.

Lemma rounded64_name (e r : Event64) :
  rounded64 e = Ok r -> name64 r = name64 e.
Proof.
  unfold rounded64.
  destruct (round_value64 (elapsed_time64 e) Decimal_1_000) as [t| |];
    try discriminate. cbn [bind].
  destruct (round_value64 (total_hot_dogs_eaten64 e) Decimal_1_000)
    as [n| |]; try discriminate. cbn [bind].
  intros [= <-]. reflexivity.
Qed.

Lemma map_rounded64_Ok (l rs : list Event64) :
  map_rounded64 l = Ok rs ->
  List.Forall2 (fun e r => rounded64 e = Ok r) l rs.
Proof.
  revert rs. induction l as [|e l IH]; intros rs; simpl.
  - intros [= <-]. constructor.
  - destruct (rounded64 e) as [r| |] eqn:Hr; try discriminate. cbn [bind].
    destruct (map_rounded64 l) as [rs'| |]; try discriminate. cbn [bind].
    intros [= <-]. constructor; [exact Hr|]. apply IH. reflexivity.
Qed.

Lemma own_events64_rounded_length (c : string) (l rs : list Event64) :
  List.Forall2 (fun e r => rounded64 e = Ok r) l rs ->
  length (own_events64 c rs) = length (own_events64 c l).
Proof.
  induction 1 as [|e r l rs Hr _ IH]; simpl; [reflexivity|].
  rewrite (rounded64_name e r Hr).
  destruct (String.eqb (name64 e) c); simpl; rewrite IH; reflexivity.
Qed.

Lemma competitor_trace64_length (rate : nat -> spec_float) (D : spec_float)
    (c : string) (m : nat) (total : spec_float) :
  length (competitor_trace64 rate D c m total) = (m + 2)%nat.
Proof.
  unfold competitor_trace64, whole_events64.
  rewrite length_app, length_map, length_seq. simpl. lia.
Qed.

(** X5.  On doubles, when [run] returns on a new competition, the events
    of each competitor were appended in this order: one whole-item event
    per index [0 .. m], with the counts [1 .. m + 1] and the running float
    sums of the rate function as elapsed times, then exactly one event of
    the end of the competition with the count that line 79 stores, where
    [m] is the first index at which the test of line 73 is true (the next
    item time is not zero there).  The internal list holds these [m + 2]
    events of the competitor, the returned list their rounded forms. *)
Theorem run64_competitor_trace (cs : list (string * (nat -> spec_float)))
    (D : spec_float) (fuel : nat) (rs : list Event64)
    (self' : Competition64) :
  NoDup (names64 cs) ->
  run64 (Competition_init64 cs D) fuel = Ok (rs, self') ->
  exists st,
    simulate64 (Competition_init64 cs D) fuel = Ok st
    /\ event_list64 self' = list_sort64 (events64 st)
    /\ List.Forall2 (fun e r => rounded64 e = Ok r) (event_list64 self') rs
    /\ forall c rate, In (c, rate) cs ->
         exists m total,
           stops_at64 D rate m
           /\ feqb (rate (m + 1)%nat) fzero = false
           /\ stored_count64 D rate m = Ok total
           /\ own_events64 c (events64 st)
              = competitor_trace64 rate D c m total
           /\ Permutation (own_events64 c (event_list64 self'))
                (competitor_trace64 rate D c m total)
           /\ length (own_events64 c rs) = (m + 2)%nat.
Proof.
  intros Hnd Hrun.
  destruct (run64_Ok _ _ _ _ Hrun) as (st & Hsim & Hmap & ->).
  exists st. split; [exact Hsim|]. split; [reflexivity|].
  cbn [event_list64].
  pose proof (map_rounded64_Ok _ _ Hmap) as Hall.
  split; [exact Hall|]. intros c rate Hin.
  destruct (simulate64_trace D [] cs fuel st Hnd Hsim c rate Hin)
    as (m & total & Hstop & Hz & Hr & Hown).
  cbn [own_events64 List.filter app] in Hown.
  assert (Hp : Permutation (own_events64 c (list_sort64 (events64 st)))
                 (competitor_trace64 rate D c m total)).
  { rewrite <- Hown. apply own_events64_perm, list_sort64_perm. }
  exists m, total. split; [exact Hstop|]. split; [exact Hz|].
  split; [exact Hr|]. split; [exact Hown|]. split; [exact Hp|].
  rewrite (own_events64_rounded_length c _ _ Hall), (Permutation_length Hp).
  apply competitor_trace64_length.
Qed.

Lemma run64_competitor_trace_witness :
  let cs := competitors64 alice_and_bob64 in
  let D := duration64 alice_and_bob64 in
  NoDup (names64 cs)
  /\ exists rs self' st,
       run64 (Competition_init64 cs D) 10 = Ok (rs, self')
       /\ simulate64 (Competition_init64 cs D) 10 = Ok st
       /\ forall c rate, In (c, rate) cs ->
            exists m total,
              stops_at64 D rate m
              /\ stored_count64 D rate m = Ok total
              /\ own_events64 c (events64 st)
                 = competitor_trace64 rate D c m total
              /\ length (own_events64 c rs) = (m + 2)%nat.
Proof.
  intros cs D.
  assert (H1 : NoDup (names64 cs))
    by (apply (bool_decide_unpack _); vm_compute; reflexivity).
  assert (Hrun : exists rs self',
            run64 (Competition_init64 cs D) 10 = Ok (rs, self'))
    by (eexists; eexists; vm_compute; reflexivity).
  destruct Hrun as (rs & self' & Hrun).
  split; [exact H1|]. exists rs, self'.
  destruct (run64_competitor_trace cs D 10 rs self' H1 Hrun)
    as (st & Hsim & _ & _ & Htrace).
  exists st. split; [exact Hrun|]. split; [exact Hsim|].
  intros c rate Hin.
  destruct (Htrace c rate Hin) as (m & total & Hs & _ & Hr & Ho & _ & Hl).
  exists m, total. auto.
Defined.

(* ================================================================== *)
(** ** Runs that do not return, on doubles *)

(** X6.  On doubles, [run] never returns a result when the lookahead of
    one competitor is never below zero, whatever the fuel and whatever the
    event list held before: the loop goes on until a visit raises, if one
    ever does.  An instance is a rate function that is constantly zero
    with a duration that is not negative. *)
Theorem run64_never_returns (self : Competition64) (c : string)
    (rate : nat -> spec_float) (fuel : nat) (rs : list Event64)
    (self' : Competition64) :
  NoDup (names64 (competitors64 self)) ->
  In (c, rate) (competitors64 self) ->
  (forall n, fltb (lookahead64 (duration64 self) rate n) fzero = false) ->
  run64 self fuel <> Ok (rs, self').
Proof.
  intros Hnd Hin Hnever Hrun.
  destruct (run64_Ok self fuel rs self' Hrun) as (st & Hsim & _).
  destruct self as [cs D el]. cbn [competitors64 duration64] in *.
  destruct (simulate64_trace D el cs fuel st Hnd Hsim c rate Hin)
    as (m & total & [Hcross _] & _).
  rewrite Hnever in Hcross. discriminate Hcross.
Qed.

Lemma run64_never_returns_witness :
  let self := no_time_at_all in
  let rate := fun _ : nat => fzero in
  NoDup (names64 (competitors64 self))
  /\ In ("Alice"%string, rate) (competitors64 self)
  /\ (forall n, fltb (lookahead64 (duration64 self) rate n) fzero = false)
  /\ run64 self 7 = NoFuel
  /\ forall rs self', run64 self 7 <> Ok (rs, self').
Proof.
  intros self rate.
  assert (H1 : NoDup (names64 (competitors64 self)))
    by (apply (bool_decide_unpack _); vm_compute; reflexivity).
  assert (H2 : In ("Alice"%string, rate) (competitors64 self))
    by (left; reflexivity).
  assert (H3 : forall n,
             fltb (lookahead64 (duration64 self) rate n) fzero = false).
  { assert (Hz : forall n, elapsed_sum64 rate n = fzero).
    { induction n as [|n IH]; [reflexivity|].
      cbn [elapsed_sum64]. rewrite IH. vm_compute. reflexivity. }
    intros n. unfold lookahead64. rewrite (Hz n). vm_compute. reflexivity. }
  split; [exact H1|]. split; [exact H2|]. split; [exact H3|].
  split; [vm_compute; reflexivity|].
  intros rs self'.
  exact (run64_never_returns self "Alice" rate 7 rs self' H1 H2 H3).
Defined.

(* ================================================================== *)
(** ** The exceptions of [run], on doubles *)

Lemma visit64_Raise (D : spec_float) (k : nat) (c : string)
    (rate : nat -> spec_float) (st : loop_state64) (e : exn) :
  breaks64 st !! c <> None ->
  visit64 D k c rate st = Raise e ->
  (e = ZeroDivisionError /\ feqb (rate (k + 1)%nat) fzero = true)
  \/ e = InvalidOperation
  \/ e = OverflowError.
Proof.
  intros Hb Hv.
  destruct (visit64_cases D k c rate st _ Hv)
    as [[Hn _]|[(b & _ & [=])|(_ & H)]]; [contradiction|].
  cbv zeta in H. destruct H as [[_ [= ->]]|(kf & _ & H)]; [auto|].
  destruct H as [(_ & [=])|[(_ & Hz & [= ->])|[(_ & _ & _ & [= ->])
                                               |(total & _ & _ & _ & [=])]]];
    auto.
Qed.

Lemma for_each64_Raise (D : spec_float) (k : nat)
    (cs l : list (string * (nat -> spec_float))) (e : exn) :
  incl l cs ->
  forall st,
  (forall c, In c (names64 cs) -> breaks64 st !! c <> None) ->
  for_each64 D k l st = Raise e -> raised_by_run cs e.
Proof.
  intros Hincl. induction l as [|[c rate] l IH]; intros st Hdom Hfor;
    [discriminate|].
  simpl in Hfor.
  assert (Hin : In (c, rate) cs) by (apply Hincl; left; reflexivity).
  destruct (visit64 D k c rate st) as [st1|e1|] eqn:Hv; cbn [bind] in Hfor;
    try discriminate.
  - apply (IH (fun x Hx => Hincl x (or_intror Hx)) st1); [|exact Hfor].
    intros c' Hc'.
    apply (proj2 (visit64_breaks D k c rate st st1 Hv)), Hdom, Hc'.
  - injection Hfor as <-.
    destruct (visit64_Raise D k c rate st e1
                (Hdom c (In_names64 c rate cs Hin)) Hv)
      as [[-> Hz]|[-> | ->]];
      [left; split; [reflexivity|exists c, rate, k; auto]
      |right; left; reflexivity|right; right; reflexivity].
Qed.

Lemma while_loop64_Raise (D : spec_float)
    (cs : list (string * (nat -> spec_float))) (fuel : nat) (e : exn) :
  forall k st,
  (forall c, In c (names64 cs) -> breaks64 st !! c <> None) ->
  while_loop64 fuel D cs k st = Raise e -> raised_by_run cs e.
Proof.
  induction fuel as [|fuel IH]; intros k st Hdom Hw; [discriminate|].
  simpl in Hw.
  destruct (for_each64 D k cs st) as [st1|e1|] eqn:Hfor; cbn [bind] in Hw;
    try discriminate.
  - destruct (is_break (breaks64 st1)); [discriminate|].
    apply (IH (k + 1)%nat st1); [|exact Hw].
    intros c Hc. apply (proj2 (for_each64_breaks D k cs st st1 Hfor)), Hdom, Hc.
  - injection Hw as <-.
    exact (for_each64_Raise D k cs cs e1 (incl_refl cs) st Hdom Hfor).
Qed.

Lemma map_rounded64_Raise (l : list Event64) (e : exn) :
  map_rounded64 l = Raise e -> e = InvalidOperation.
Proof.
  induction l as [|x l IH]; simpl; [discriminate|].
  unfold rounded64.
  destruct (round_value64_cases (elapsed_time64 x) Decimal_1_000)
    as [[t ->]| ->]; cbn [bind]; [|congruence].
  destruct (round_value64_cases (total_hot_dogs_eaten64 x) Decimal_1_000)
    as [[n ->]| ->]; cbn [bind]; [|congruence].
  destruct (map_rounded64 l) as [rs|e1|]; cbn [bind]; try discriminate.
  intros [= <-]. apply IH. reflexivity.
Qed.

(** X7.  On doubles, the exceptions that [run] raises are
    [ZeroDivisionError] (line 79, only when some rate function returns a
    zero), [decimal.InvalidOperation] (the rounding of line 79 or of line
    88, when a number is infinite or has more than 28 digits after the
    rounding) and [OverflowError] ([float(cnt + 1)]).  It never raises
    [KeyError]: [breaks] has a flag for every competitor. *)
Theorem run64_raises (self : Competition64) (fuel : nat) (e : exn) :
  run64 self fuel = Raise e ->
  raised_by_run (competitors64 self) e /\ e <> KeyError.
Proof.
  intros Hrun.
  assert (H : raised_by_run (competitors64 self) e).
  { unfold run64 in Hrun.
    destruct (simulate64 self fuel) as [st|e1|] eqn:Hsim; cbn [bind] in Hrun;
      try discriminate.
    - destruct (map_rounded64 (list_sort64 (events64 st))) as [l|e1|] eqn:Hm;
        cbn [bind] in Hrun; try discriminate.
      injection Hrun as <-. right. left.
      exact (map_rounded64_Raise _ _ Hm).
    - injection Hrun as <-. unfold simulate64 in Hsim.
      apply (while_loop64_Raise _ _ _ _ _ _) in Hsim; [exact Hsim|].
      intros c Hc. cbn [breaks64]. rewrite init_breaks64_lookup.
      destruct (in_dec string_dec c (names64 (competitors64 self)));
        [discriminate|contradiction]. }
  split; [exact H|].
  destruct H as [[-> _]|[-> | ->]]; discriminate.
Qed.

Lemma run64_raises_witness :
  run64 very_slow 3 = Raise InvalidOperation
  /\ raised_by_run (competitors64 very_slow) InvalidOperation
  /\ InvalidOperation <> KeyError.
Proof.
  assert (H : run64 very_slow 3 = Raise InvalidOperation)
    by (vm_compute; reflexivity).
  split; [exact H|]. exact (run64_raises very_slow 3 InvalidOperation H).
Defined.

(* ================================================================== *)
(** ** Termination, on doubles *)

Lemma not_break_active (b : gmap string nat) :
  is_break b = false -> exists c v, b !! c = Some v /\ v <> 1%nat.
Proof.
  intros Hbr.
  destruct (List.Forall_Exists_dec (fun v => v = 1%nat)
              (fun v => Nat.eq_dec v 1%nat) (map snd (map_to_list b)))
    as [Hall|Hex].
  - pose proof (proj2 (breaks_values_Forall (fun v => v = 1%nat) b) Hall)
      as Hone.
    rewrite (all_finished_is_break b Hone) in Hbr. discriminate.
  - apply List.Exists_exists in Hex. destruct Hex as (v & Hin & Hv).
    apply in_map_iff in Hin. destruct Hin as ([c v'] & <- & Hin).
    exists c, v'. split; [|exact Hv].
    apply elem_of_map_to_list, list_elem_of_In. exact Hin.
Qed.

Lemma visit64_not_NoFuel (D : spec_float) (k : nat) (c : string)
    (rate : nat -> spec_float) (st : loop_state64) :
  visit64 D k c rate st <> NoFuel.
Proof.
  intros Hv.
  destruct (visit64_cases D k c rate st _ Hv)
    as [[_ [=]]|[(b & _ & [=])|(_ & H)]].
  cbv zeta in H. destruct H as [[_ [=]]|(kf & _ & H)].
  destruct H as [(_ & [=])|[(_ & _ & [=])|[(_ & _ & _ & [=])
                                          |(total & _ & _ & _ & [=])]]].
Qed.

Lemma for_each64_not_NoFuel (D : spec_float) (k : nat)
    (l : list (string * (nat -> spec_float))) (st : loop_state64) :
  for_each64 D k l st <> NoFuel.
Proof.
  revert st. induction l as [|[c rate] l IH]; intros st; simpl;
    [discriminate|].
  destruct (visit64 D k c rate st) as [st1| |] eqn:Hv; cbn [bind];
    [apply IH|discriminate|].
  exfalso. exact (visit64_not_NoFuel D k c rate st Hv).
Qed.

Lemma visit64_keys (D : spec_float) (cs : list (string * (nat -> spec_float)))
    (k : nat) (c : string) (rate : nat -> spec_float)
    (st st' : loop_state64) :
  In c (names64 cs) ->
  visit64 D k c rate st = Ok st' ->
  keys_ok cs (breaks64 st) -> keys_ok cs (breaks64 st').
Proof.
  intros Hc Hv Hkeys.
  assert (Hcases : breaks64 st' = breaks64 st
                   \/ breaks64 st' = <[c := 1%nat]> (breaks64 st)).
  { destruct (visit64_cases D k c rate st _ Hv)
      as [[_ [=]]|[(b & _ & [= ->])|(_ & H)]]; [left; reflexivity|].
    cbv zeta in H. destruct H as [[_ [=]]|(kf & _ & H)].
    destruct H as [(_ & [= ->])|[(_ & _ & [=])|[(_ & _ & _ & [=])
                                   |(total & _ & _ & _ & [= ->])]]];
      [left|right]; reflexivity. }
  destruct Hcases as [-> | ->]; [exact Hkeys|].
  intros c' v. destruct (string_dec c c') as [->|Hne].
  - intros _. exact Hc.
  - rewrite lookup_insert_ne by exact Hne. apply Hkeys.
Qed.

Lemma for_each64_keys (D : spec_float)
    (cs : list (string * (nat -> spec_float))) (k : nat)
    (l : list (string * (nat -> spec_float))) :
  incl l cs ->
  forall st st',
  for_each64 D k l st = Ok st' ->
  keys_ok cs (breaks64 st) -> keys_ok cs (breaks64 st').
Proof.
  intros Hincl. induction l as [|[c rate] l IH]; intros st st' Hfor Hkeys.
  - injection Hfor as <-. exact Hkeys.
  - simpl in Hfor. destruct (visit64 D k c rate st) as [st1| |] eqn:Hv;
      try discriminate. cbn [bind] in Hfor.
    apply (IH (fun x Hx => Hincl x (or_intror Hx)) st1 st' Hfor).
    apply (visit64_keys D cs k c rate st st1); [|exact Hv|exact Hkeys].
    apply (In_names64 c rate). apply Hincl. left. reflexivity.
Qed.

Section Termination64.

Variable D : spec_float.
Variable el : list Event64.
Variable cs : list (string * (nat -> spec_float)).
Variable M : nat.

Hypothesis cs_NoDup : NoDup (names64 cs).
Hypothesis all_stop : forall c rate, In (c, rate) cs ->
  exists m, (m < M)%nat /\ fltb (lookahead64 D rate m) fzero = true.

Lemma while_loop64_terminates (fuel : nat) :
  forall k st,
  (forall c rate, In (c, rate) cs -> trace_inv64 D el k c rate st) ->
  keys_ok cs (breaks64 st) ->
  (M <= k + fuel)%nat -> (1 <= fuel)%nat ->
  while_loop64 fuel D cs k st <> NoFuel.
Proof.
  induction fuel as [|fuel IH]; intros k st Hinv Hkeys HM Hfuel; [lia|].
  cbn [while_loop64].
  destruct (for_each64 D k cs st) as [st1|e|] eqn:Hfor; cbn [bind];
    [|discriminate|exfalso; exact (for_each64_not_NoFuel D k cs st Hfor)].
  destruct (is_break (breaks64 st1)) eqn:Hbr; [discriminate|].
  pose proof (for_each64_lift D cs (trace_inv64 D el)
           (fun k c rate st st' _ => trace_inv64_visit D el k c rate st st')
           (fun j k c rate c' rate' =>
              trace_inv64_other D el j k c c' rate rate')
           k cs cs_NoDup (incl_refl cs) st st1 Hfor Hinv) as [Hinv1 _].
  pose proof (for_each64_keys D cs k cs (incl_refl cs) st st1 Hfor Hkeys)
    as Hkeys1.
  destruct (not_break_active _ Hbr) as (c & v & Hcv & Hv).
  pose proof (Hkeys1 c v Hcv) as Hname.
  apply in_map_iff in Hname. destruct Hname as ([c' rate] & Hc' & Hin).
  simpl in Hc'. subst c'.
  destruct (Hinv1 c rate Hin) as [(_ & _ & _ & Hno)|(Hb' & _)];
    [|congruence].
  destruct (all_stop c rate Hin) as (m & Hm & Hcross).
  assert (Hk : (S k <= m)%nat).
  { destruct (Nat.le_gt_cases (S k) m) as [Hle|Hgt]; [exact Hle|].
    rewrite (Hno m Hgt) in Hcross. discriminate Hcross. }
  rewrite Nat.add_1_r. apply IH; [exact Hinv1|exact Hkeys1|lia|lia].
Qed.

End Termination64.

(** X8.  On doubles, [run] returns or raises within [M] iterations when
    for every competitor the lookahead test of line 73 is true at some
    index below [M]; the fuel [M] (at least 1) is then enough, whatever the
    event list held before. *)
Theorem run64_terminates (cs : list (string * (nat -> spec_float)))
    (D : spec_float) (el : list Event64) (M : nat) :
  NoDup (names64 cs) ->
  (forall c rate, In (c, rate) cs ->
     exists m, (m < M)%nat /\ fltb (lookahead64 D rate m) fzero = true) ->
  (1 <= M)%nat ->
  run64 (mkCompetition64 cs D el) M <> NoFuel.
Proof.
  intros Hnd Hstop HM Hrun. unfold run64 in Hrun.
  destruct (simulate64 (mkCompetition64 cs D el) M) as [st|e|] eqn:Hsim;
    cbn [bind] in Hrun.
  - destruct (map_rounded64 (list_sort64 (events64 st))) as [l|e|] eqn:Hm;
      cbn [bind] in Hrun; try discriminate.
    clear Hrun. revert Hm. generalize (list_sort64 (events64 st)).
    intros l. induction l as [|x l IH]; simpl; [discriminate|].
    destruct (rounded64 x) as [r|e|] eqn:Hr; cbn [bind]; try discriminate.
    + destruct (map_rounded64 l) as [rs|e|]; cbn [bind]; try discriminate.
      intros _. apply IH. reflexivity.
    + intros _. unfold rounded64 in Hr.
      destruct (round_value64_cases (elapsed_time64 x) Decimal_1_000)
        as [[t Ht]|Ht]; rewrite Ht in Hr; cbn [bind] in Hr;
        [|discriminate].
      destruct (round_value64_cases (total_hot_dogs_eaten64 x) Decimal_1_000)
        as [[n Hn]|Hn]; rewrite Hn in Hr; discriminate.
  - discriminate.
  - unfold simulate64 in Hsim.
    cbn [competitors64 duration64 event_list64] in Hsim.
    revert Hsim. apply (while_loop64_terminates D el cs M Hnd Hstop M 0).
    + intros c rate Hin. apply trace_inv64_init, Hin.
    + intros c v. cbn [breaks64]. rewrite init_breaks64_lookup.
      destruct (in_dec string_dec c (names64 cs)); [auto|discriminate].
    + lia.
    + exact HM.
Qed.

Lemma run64_terminates_witness :
  let cs := competitors64 alice_and_bob64 in
  let D := duration64 alice_and_bob64 in
  NoDup (names64 cs)
  /\ (forall c rate, In (c, rate) cs ->
        exists m, (m < 5)%nat /\ fltb (lookahead64 D rate m) fzero = true)
  /\ (1 <= 5)%nat
  /\ run64 (mkCompetition64 cs D []) 5 <> NoFuel.
Proof.
  intros cs D.
  assert (H1 : NoDup (names64 cs))
    by (apply (bool_decide_unpack _); vm_compute; reflexivity).
  assert (H2 : forall c rate, In (c, rate) cs ->
             exists m, (m < 5)%nat
                       /\ fltb (lookahead64 D rate m) fzero = true).
  { intros c rate [[= <- <-]|[[= <- <-]|[]]].
    - exists 0%nat. split; [lia|vm_compute; reflexivity].
    - exists 4%nat. split; [lia|vm_compute; reflexivity]. }
  assert (H3 : (1 <= 5)%nat) by lia.
  split; [exact H1|]. split; [exact H2|]. split; [exact H3|].
  exact (run64_terminates cs D [] 5 H1 H2 H3).
Defined.
